(** * Tic Tac Toe (React front end): the game state of [App.js]

    A shallow embedding of the state and the event handlers of the [App]
    component of [tic_tac_toe_frontend/src/App.js], and the properties of its
    game engine: move handling, win and draw detection, the scoreboard, the
    new-game and reset-scores controls and the theme toggle; then what the
    component renders from that state (status line, square buttons, theme
    button) and the effect that copies the theme to the document. *)

From stdpp Require Import base list strings pretty gmap.

(** ** JavaScript values held by the component *)

(** The two marks, the string literals ['X'] and ['O'] of the source. *)
Inductive Mark : Set := X | O.

#[global] Instance Mark_eq_dec : EqDecision Mark.
Proof. solve_decision. Defined.

(** What a board slot can be read as: [undefined] (a hole or an index past
    the end), [null] (an empty cell) or a mark. *)
Inductive value : Set :=
| undefined
| null
| str (m : Mark).

#[global] Instance value_eq_dec : EqDecision value.
Proof. solve_decision. Defined.

(** JavaScript truthiness: [undefined] and [null] are falsy, the non-empty
    strings ['X'] and ['O'] are truthy.  [Boolean] is the same conversion
    used as a callback. *)
Definition truthy (v : value) : bool :=
  match v with
  | str _ => true
  | _ => false
  end.

Definition Boolean : value -> bool := truthy.

(** [===] on these values. *)
Definition strict_eq (v w : value) : bool := bool_decide (v = w).

(** ** Arrays

    A JavaScript array is a list of slots; a slot is either a hole ([None])
    or holds a value.  Indices are array indices, natural numbers. *)
Abbreviation Array := (list (option value)).

(** [Array(n).fill(v)] *)
Definition Array_fill (n : nat) (v : value) : Array := replicate n (Some v).

(** [a[i]]: a hole and an index past the end both read as [undefined]. *)
Definition get (a : Array) (i : nat) : value :=
  match a !! i with
  | Some (Some v) => v
  | _ => undefined
  end.

(** [a[i] = v] for an array index [i] (an integer from 0 to 2^32 - 2): in
    range the slot is overwritten; past the end the array is extended, the
    slots in between being holes.  Keys that are not array indices are the
    matter of [object_set] below. *)
Definition array_set (a : Array) (i : nat) (v : value) : Array :=
  if decide (i < length a) then <[i := Some v]> a
  else a ++ replicate (i - length a) None ++ [Some v].

(** [a.slice()]: a copy; holes stay holes. *)
Definition slice (a : Array) : Array := a.

(** [a.every(p)]: holes are skipped. *)
Definition every (p : value -> bool) (a : Array) : bool :=
  forallb (fun slot => match slot with
                       | Some v => p v
                       | None => true
                       end) a.

(** ** Component state *)

Inductive Theme : Set := light | dark.

#[global] Instance Theme_eq_dec : EqDecision Theme.
Proof. solve_decision. Defined.

(** The scoreboard object [{ X, O, draws }].  The counters are JavaScript
    numbers that start at 0 and only grow by one; they are taken as natural
    numbers, which is exact as long as a counter is below 2^53 (see
    [safe_counters]): a statement about an arbitrary scoreboard carries
    that bound. *)
Module Scores.
Record t : Set := mk { X : nat; O : nat; draws : nat }.
End Scores.

(** [prev[k]] for a mark key [k] *)
Definition at_key (prev : Scores.t) (k : Mark) : nat :=
  match k with
  | X => Scores.X prev
  | O => Scores.O prev
  end.

(** [{ ...prev, [k]: n }] for a mark key [k] *)
Definition with_key (prev : Scores.t) (k : Mark) (n : nat) : Scores.t :=
  match k with
  | X => Scores.mk n (Scores.O prev) (Scores.draws prev)
  | O => Scores.mk (Scores.X prev) n (Scores.draws prev)
  end.

(** [{ ...prev, draws: n }] *)
Definition with_draws (prev : Scores.t) (n : nat) : Scores.t :=
  Scores.mk (Scores.X prev) (Scores.O prev) n.

(** The object [{ winner, line }] returned by [calculateWinner]. *)
Record WinnerInfo : Set := mkWinnerInfo { winner : value; line : list nat }.

(** The six [useState] cells of [App]. *)
Record State : Set := mkState {
  theme : Theme;
  board : Array;
  xIsNext : bool;
  scores : Scores.t;
  winnerInfo : WinnerInfo;
  isDraw : bool
}.

(** The state of the first render. *)
Definition init : State :=
  {| theme := light;
     board := Array_fill 9 null;
     xIsNext := true;
     scores := Scores.mk 0 0 0;
     winnerInfo := mkWinnerInfo null [];
     isDraw := false |}.

(** ** Event handlers

    A handler is a closure of one render: it reads the state of that render
    and queues updates with the [useState] setters.  React applies the queued
    updates in order to the pending state; a setter takes either the new
    value or an updater of the pending one.  Property reads on arrays and
    objects never throw, so every handler below completes normally; the
    completion type keeps the two ways a JavaScript call can end. *)

Inductive Error : Set := TypeError | RangeError.

Inductive completion (A : Type) : Type :=
| Normal (a : A)
| Throw (e : Error).
Arguments Normal {A} a.
Arguments Throw {A} e.

Definition Handler (A : Type) : Type := State -> completion (A * State).

#[global] Instance Handler_ret : MRet Handler :=
  fun A a pending => Normal (a, pending).

#[global] Instance Handler_bind : MBind Handler :=
  fun A B k h pending =>
    match h pending with
    | Normal (a, pending') => k a pending'
    | Throw e => Throw e
    end.

Inductive SetStateAction (A : Type) : Type :=
| Value (a : A)
| Updater (f : A -> A).
Arguments Value {A} a.
Arguments Updater {A} f.

Definition resolve {A : Type} (act : SetStateAction A) (prev : A) : A :=
  match act with
  | Value a => a
  | Updater f => f prev
  end.

Definition setTheme (act : SetStateAction Theme) : Handler unit :=
  fun p => Normal (tt, mkState (resolve act (theme p)) (board p) (xIsNext p)
                               (scores p) (winnerInfo p) (isDraw p)).

Definition setBoard (act : SetStateAction Array) : Handler unit :=
  fun p => Normal (tt, mkState (theme p) (resolve act (board p)) (xIsNext p)
                               (scores p) (winnerInfo p) (isDraw p)).

Definition setXIsNext (act : SetStateAction bool) : Handler unit :=
  fun p => Normal (tt, mkState (theme p) (board p) (resolve act (xIsNext p))
                               (scores p) (winnerInfo p) (isDraw p)).

Definition setScores (act : SetStateAction Scores.t) : Handler unit :=
  fun p => Normal (tt, mkState (theme p) (board p) (xIsNext p)
                               (resolve act (scores p)) (winnerInfo p) (isDraw p)).

Definition setWinnerInfo (act : SetStateAction WinnerInfo) : Handler unit :=
  fun p => Normal (tt, mkState (theme p) (board p) (xIsNext p)
                               (scores p) (resolve act (winnerInfo p)) (isDraw p)).

Definition setIsDraw (act : SetStateAction bool) : Handler unit :=
  fun p => Normal (tt, mkState (theme p) (board p) (xIsNext p)
                               (scores p) (winnerInfo p) (resolve act (isDraw p))).

(** The table of [calculateWinner], in its scan order. *)
Definition lines : list (nat * nat * nat) :=
  [ (0, 1, 2); (3, 4, 5); (6, 7, 8);
    (0, 3, 6); (1, 4, 7); (2, 5, 8);
    (0, 4, 8); (2, 4, 6) ].

(** The test of the loop body:
    [squares[a] && squares[a] === squares[b] && squares[b] === squares[c]]. *)
Definition line_matches (squares : Array) (l : nat * nat * nat) : bool :=
  let '(a, b, c) := l in
  truthy (get squares a)
  && strict_eq (get squares a) (get squares b)
  && strict_eq (get squares b) (get squares c).

(** The [for ... of] loop over a table, returning at the first match. *)
Fixpoint scan (table : list (nat * nat * nat)) (squares : Array) : WinnerInfo :=
  match table with
  | [] => mkWinnerInfo null []
  | (a, b, c) :: rest =>
      if line_matches squares (a, b, c)
      then mkWinnerInfo (get squares a) [a; b; c]
      else scan rest squares
  end.

Definition calculateWinner (squares : Array) : WinnerInfo := scan lines squares.

(** [xIsNext ? 'X' : 'O'] *)
Definition turn (s : State) : Mark := if xIsNext s then X else O.

(** [handleSquareClick(idx)], as a closure of the render [r]. *)
Definition handleSquareClick (r : State) (idx : nat) : Handler unit :=
  if truthy (winner (winnerInfo r)) || isDraw r || truthy (get (board r) idx)
  then mret tt
  else
    let nextBoard := array_set (slice (board r)) idx (str (turn r)) in
    let res := calculateWinner nextBoard in
    let filled := every Boolean nextBoard in
    let draw := negb (truthy (winner res)) && filled in
    setBoard (Value nextBoard) ;;
    setXIsNext (Updater negb) ;;
    setWinnerInfo (Value res) ;;
    setIsDraw (Value draw) ;;
    match winner res with
    | str k =>
        setScores (Updater (fun prev => with_key prev k (at_key prev k + 1)))
    | _ =>
        if draw
        then setScores (Updater (fun prev => with_draws prev (Scores.draws prev + 1)))
        else mret tt
    end.

(** [newGame()] *)
Definition newGame (r : State) : Handler unit :=
  setBoard (Value (Array_fill 9 null)) ;;
  setXIsNext (Value true) ;;
  setWinnerInfo (Value (mkWinnerInfo null [])) ;;
  setIsDraw (Value false).

(** [resetScores()] *)
Definition resetScores (r : State) : Handler unit :=
  newGame r ;;
  setScores (Value (Scores.mk 0 0 0)).

(** [toggleTheme()] *)
Definition toggleTheme (r : State) : Handler unit :=
  setTheme (Updater (fun prev => if decide (prev = light) then dark else light)).

(** One event: the handler of the current render runs on the current state
    and the component re-renders with the resulting state. *)
Definition dispatch (h : State -> Handler unit) (s : State) : completion State :=
  match h s s with
  | Normal (_, s') => Normal s'
  | Throw e => Throw e
  end.

Inductive Event : Set :=
| Click (idx : nat)
| NewGame
| ResetScores
| ToggleTheme.

Definition step (s : State) (e : Event) : completion State :=
  match e with
  | Click idx => dispatch (fun r => handleSquareClick r idx) s
  | NewGame => dispatch newGame s
  | ResetScores => dispatch resetScores s
  | ToggleTheme => dispatch toggleTheme s
  end.

(** A series of events, one after the other. *)
Fixpoint run (s : State) (es : list Event) : completion State :=
  match es with
  | [] => Normal s
  | e :: rest =>
      match step s e with
      | Normal s' => run s' rest
      | Throw err => Throw err
      end
  end.

(** ** What the interface shows

    [statusText] and the result banner read the state in this order: a
    winner first, then the draw flag, otherwise the round is in progress. *)
Inductive Outcome : Set :=
| IN_PROGRESS
| WIN (m : Mark) (l : list nat)
| DRAW.

Definition outcome (s : State) : Outcome :=
  match winner (winnerInfo s) with
  | str m => WIN m (line (winnerInfo s))
  | _ => if isDraw s then DRAW else IN_PROGRESS
  end.

(** [Boolean(winnerInfo.winner) || isDraw] *)
Definition gameOver (s : State) : bool :=
  Boolean (winner (winnerInfo s)) || isDraw s.

(** ** Vocabulary of the properties *)

(** The states the component can be in: the first render followed by any
    series of events. *)
Inductive reachable : State -> Prop :=
| reachable_init : reachable init
| reachable_step s e s' :
    reachable s -> step s e = Normal s' -> reachable s'.

(** An accepted move: the round is in progress, the index is one of the
    nine cells and the cell is empty. *)
Definition accepted (s : State) (idx : nat) : bool :=
  negb (gameOver s) && bool_decide (idx <= 8)
  && bool_decide (get (board s) idx = null).

(** A series of accepted moves; [None] as soon as one is not accepted. *)
Fixpoint play (s : State) (moves : list nat) : option State :=
  match moves with
  | [] => Some s
  | idx :: rest =>
      if accepted s idx then
        match step s (Click idx) with
        | Normal s' => play s' rest
        | Throw _ => None
        end
      else None
  end.

(** A fresh round: what [newGame] leaves, whatever the scores and theme. *)
Definition fresh (s : State) : Prop :=
  board s = Array_fill 9 null /\ xIsNext s = true
  /\ winnerInfo s = mkWinnerInfo null [] /\ isDraw s = false.

(** The first triple of the table, in scan order, whose cells match. *)
Definition first_match (squares : Array) : option (nat * nat * nat) :=
  List.find (line_matches squares) lines.

(** All nine cells hold a mark. *)
Definition filled9 (squares : Array) : bool :=
  forallb (fun i => truthy (get squares i)) (seq 0 9).

(** Number of slots holding the mark [m]. *)
Definition count_mark (m : Mark) (squares : Array) : nat :=
  length (filter (fun slot => slot = Some (str m)) squares).

(** The post-state of a click, read off the handler. *)
Definition click_scores (s : State) (res : WinnerInfo) (draw : bool) : Scores.t :=
  match winner res with
  | str k => with_key (scores s) k (at_key (scores s) k + 1)
  | _ => if draw then with_draws (scores s) (Scores.draws (scores s) + 1)
         else scores s
  end.

(** The opponent of a mark. *)
Definition other (m : Mark) : Mark :=
  match m with
  | X => O
  | O => X
  end.

(** Shape of the board array: the nine cells are never holes and hold
    [null] or a mark; a slot past them, if any, is a hole or a mark. *)
Definition cell_slot (slot : option value) : Prop :=
  slot = Some null \/ exists m, slot = Some (str m).

Definition extra_slot (slot : option value) : Prop :=
  slot = None \/ exists m, slot = Some (str m).

Definition board_ok (a : Array) : Prop :=
  9 <= length a
  /\ forall i slot, a !! i = Some slot ->
       if decide (i < 9) then cell_slot slot else extra_slot slot.

(** The state invariant of the component. *)
Record Inv (s : State) : Prop := mkInv {
  inv_winner : winnerInfo s = calculateWinner (board s);
  inv_draw : isDraw s = negb (truthy (winner (winnerInfo s)))
                        && every Boolean (board s);
  inv_board : board_ok (board s)
}.

(** ** Rendering

    What the JSX of [App] computes from the state: the status line, the
    props of the nine square buttons, the label of the theme button, and the
    effect that copies the theme to the document. *)

(** A mark inside a template literal. *)
Definition mark_text (m : Mark) : string :=
  match m with
  | X => "X"
  | O => "O"
  end.

(** Any of the values inside a template literal. *)
Definition value_text (v : value) : string :=
  match v with
  | undefined => "undefined"
  | null => "null"
  | str m => mark_text m
  end.

(** The [useMemo] of [statusText]. *)
Definition statusText (s : State) : string :=
  if truthy (winner (winnerInfo s))
  then "Winner: " +:+ value_text (winner (winnerInfo s))
  else if isDraw s then "Draw"
  else "Next Turn: " +:+ (if xIsNext s then "X" else "O").

(** [winnerInfo.line.includes(idx)] *)
Definition isWinning (s : State) (idx : nat) : bool :=
  bool_decide (idx ∈ line (winnerInfo s)).

(** The props of one square button and of the [span] inside it. *)
Record Square : Set := mkSquare {
  key : nat;
  className : string;
  aria_pressed : bool;
  aria_label : string;
  disabled : bool;
  mark_className : string;
  children : value
}.

(** The body of the callback of [board.map]. *)
Definition renderSquare (s : State) (val : value) (idx : nat) : Square :=
  {| key := idx;
     className := "square " +:+ (if truthy val then "filled" else "")
                  +:+ " " +:+ (if isWinning s idx then "win-cell" else "");
     aria_pressed := Boolean val;
     aria_label := "Cell " +:+ pretty (idx + 1)
                   +:+ (if truthy val then ", " +:+ value_text val else "");
     disabled := gameOver s || Boolean val;
     mark_className := "mark " +:+ (if strict_eq val (str X) then "mark-x"
                                    else if strict_eq val (str O) then "mark-o"
                                    else "");
     children := val |}.

(** [board.map((value, idx) => ...)]: the callback is not called on a hole,
    which stays a hole and renders nothing. *)
Definition renderBoard (s : State) : list (option Square) :=
  imap (fun idx slot => (fun val => renderSquare s val idx) <$> slot) (board s).

(** The [aria-label] of the theme button. *)
Definition themeButtonLabel (s : State) : string :=
  "Switch to " +:+ (if decide (theme s = light) then "dark" else "light")
  +:+ " mode".

(** The value of the [data-theme] attribute for a theme. *)
Definition theme_text (t : Theme) : string :=
  match t with
  | light => "light"
  | dark => "dark"
  end.

(** The [useEffect] with dependency list [[theme]]: after a render it runs
    on mount ([prev] is [None]) and when [theme] differs from the previous
    render's; running it sets the [data-theme] attribute of the document. *)
Definition themeEffect (prev : option Theme) (now : Theme)
    (attr : option string) : option string :=
  match prev with
  | None => Some (theme_text now)
  | Some t => if decide (t = now) then attr else Some (theme_text now)
  end.

(** The mounted component with the document attribute it maintains. *)
Record Page : Set := mkPage {
  page_state : State;
  data_theme : option string
}.

(** First render, then the effect; [attr0] is the attribute before mount. *)
Definition mount (attr0 : option string) : Page :=
  mkPage init (themeEffect None (theme init) attr0).

(** An event, the re-render, then the effect. *)
Definition page_step (p : Page) (e : Event) : completion Page :=
  match step (page_state p) e with
  | Normal s' =>
      Normal (mkPage s' (themeEffect (Some (theme (page_state p))) (theme s')
                                     (data_theme p)))
  | Throw err => Throw err
  end.

Fixpoint page_run (p : Page) (es : list Event) : completion Page :=
  match es with
  | [] => Normal p
  | e :: rest =>
      match page_step p e with
      | Normal p' => page_run p' rest
      | Throw err => Throw err
      end
  end.

(** ** Events that the rendered page can produce

    A click reaches [handleSquareClick] only from a rendered square button
    that is not disabled; the other three buttons are always enabled. *)
Definition clickable (s : State) (idx : nat) : bool :=
  match renderBoard s !! idx with
  | Some (Some sq) => negb (disabled sq)
  | _ => false
  end.

Definition ui_enabled (s : State) (e : Event) : bool :=
  match e with
  | Click idx => clickable s idx
  | _ => true
  end.

Inductive ui_reachable : State -> Prop :=
| ui_reachable_init : ui_reachable init
| ui_reachable_step s e s' :
    ui_reachable s -> ui_enabled s e = true -> step s e = Normal s' ->
    ui_reachable s'.

(** Number of empty cells. *)
Definition empty_cells (squares : Array) : nat :=
  length (filter (fun slot => slot = Some null) squares).

(** Sum of the three counters. *)
Definition total (sc : Scores.t) : nat :=
  Scores.X sc + Scores.O sc + Scores.draws sc.

(** The part of the state a round is played on. *)
Definition game_part (s : State) : Array * bool * WinnerInfo * bool :=
  (board s, xIsNext s, winnerInfo s, isDraw s).

(** ** Any integer as index

    [board[idx]] accepts any integer.  It is an array index when it lies
    between 0 and 2^32 - 2; any other integer (negative, or 2^32 - 1 and
    above) names a plain property of the array object, which is not an
    element: it does not count in [length], [every] does not visit it and
    [slice] does not copy it. *)
Definition is_array_index (k : Z) : bool :=
  bool_decide (0 <= k < 2 ^ 32 - 1)%Z.

(** An array object: its elements and its other integer-keyed properties. *)
Record ArrayObject : Type := mkArrayObject {
  elements : Array;
  properties : gmap Z value
}.

(** [o[k]] *)
Definition object_get (o : ArrayObject) (k : Z) : value :=
  if is_array_index k then get (elements o) (Z.to_nat k)
  else default undefined (properties o !! k).

(** [o[k] = v] *)
Definition object_set (o : ArrayObject) (k : Z) (v : value) : ArrayObject :=
  if is_array_index k
  then mkArrayObject (array_set (elements o) (Z.to_nat k) v) (properties o)
  else mkArrayObject (elements o) (<[k := v]> (properties o)).

(** [o.slice()]: the elements only. *)
Definition object_slice (o : ArrayObject) : ArrayObject :=
  mkArrayObject (slice (elements o)) ∅.

(** The component when the object in the [board] cell may carry such
    properties: the six cells, [board] being the elements, and beside them
    the properties of the board object. *)
Record Component : Type := mkComponent {
  hooks : State;
  boardProperties : gmap Z value
}.

Definition boardObject (c : Component) : ArrayObject :=
  mkArrayObject (board (hooks c)) (boardProperties c).

Definition ObjectHandler (A : Type) : Type :=
  Component -> completion (A * Component).

#[global] Instance ObjectHandler_ret : MRet ObjectHandler :=
  fun A a pending => Normal (a, pending).

#[global] Instance ObjectHandler_bind : MBind ObjectHandler :=
  fun A B k h pending =>
    match h pending with
    | Normal (a, pending') => k a pending'
    | Throw e => Throw e
    end.

(** A setter of one of the other five cells leaves the board object alone. *)
Definition lift {A : Type} (h : Handler A) : ObjectHandler A :=
  fun p =>
    match h (hooks p) with
    | Normal (a, s') => Normal (a, mkComponent s' (boardProperties p))
    | Throw e => Throw e
    end.

(** [setBoard] given an array object. *)
Definition setBoardObject (act : SetStateAction ArrayObject)
    : ObjectHandler unit :=
  fun p =>
    let o := resolve act (boardObject p) in
    match setBoard (Value (elements o)) (hooks p) with
    | Normal (a, s') => Normal (a, mkComponent s' (properties o))
    | Throw e => Throw e
    end.

(** [handleSquareClick(idx)] for any integer [idx], as a closure of the
    render [r]. *)
Definition handleSquareClick_at (r : Component) (idx : Z) : ObjectHandler unit :=
  if truthy (winner (winnerInfo (hooks r))) || isDraw (hooks r)
     || truthy (object_get (boardObject r) idx)
  then mret tt
  else
    let nextBoard :=
      object_set (object_slice (boardObject r)) idx (str (turn (hooks r))) in
    let res := calculateWinner (elements nextBoard) in
    let filled := every Boolean (elements nextBoard) in
    let draw := negb (truthy (winner res)) && filled in
    setBoardObject (Value nextBoard) ;;
    lift (setXIsNext (Updater negb)) ;;
    lift (setWinnerInfo (Value res)) ;;
    lift (setIsDraw (Value draw)) ;;
    match winner res with
    | str k =>
        lift (setScores
                (Updater (fun prev => with_key prev k (at_key prev k + 1))))
    | _ =>
        if draw
        then lift (setScores
                     (Updater (fun prev =>
                                 with_draws prev (Scores.draws prev + 1))))
        else mret tt
    end.

(** One click event at any integer index. *)
Definition click_at (c : Component) (idx : Z) : completion Component :=
  match handleSquareClick_at c idx c with
  | Normal (_, c') => Normal c'
  | Throw e => Throw e
  end.

(** Events whose clicks are at array indices, and the states they reach. *)
Definition indexed (e : Event) : Prop :=
  match e with
  | Click idx => is_array_index (Z.of_nat idx) = true
  | _ => True
  end.

Inductive index_reachable : State -> Prop :=
| index_reachable_init : index_reachable init
| index_reachable_step s e s' :
    index_reachable s -> indexed e -> step s e = Normal s' ->
    index_reachable s'.

(** Counters on which [+ 1] is exact in JavaScript. *)
Definition safe_counters (sc : Scores.t) : Prop :=
  (Z.of_nat (Scores.X sc) < 2 ^ 53
   /\ Z.of_nat (Scores.O sc) < 2 ^ 53
   /\ Z.of_nat (Scores.draws sc) < 2 ^ 53)%Z.

(** ** Running the handlers *)

Example run_row_win :
  run init (Click <$> [0; 3; 1; 4; 2])
  = Normal {| theme := light;
              board := [Some (str X); Some (str X); Some (str X);
                        Some (str O); Some (str O); Some null;
                        Some null; Some null; Some null];
              xIsNext := false;
              scores := Scores.mk 1 0 0;
              winnerInfo := mkWinnerInfo (str X) [0; 1; 2];
              isDraw := false |}.
Proof. reflexivity. Qed.

Example run_draw :
  outcome <$> play init [0; 1; 2; 5; 3; 6; 4; 8; 7] = Some DRAW.
Proof. reflexivity. Qed.

Lemma step_click s idx :
  step s (Click idx)
  = Normal
      (if gameOver s || truthy (get (board s) idx) then s
       else
         let nextBoard := array_set (board s) idx (str (turn s)) in
         let res := calculateWinner nextBoard in
         let draw := negb (truthy (winner res)) && every Boolean nextBoard in
         mkState (theme s) nextBoard (negb (xIsNext s))
                 (click_scores s res draw) res draw).
Proof.
  unfold step, dispatch, handleSquareClick, gameOver, Boolean, click_scores, slice.
  destruct (truthy (winner (winnerInfo s)) || isDraw s || truthy (get (board s) idx));
    [reflexivity|].
  cbv zeta.
  destruct (winner (calculateWinner _)); cbn; try reflexivity;
    destruct (every truthy _); reflexivity.
Qed.

Lemma step_newGame s :
  step s NewGame
  = Normal (mkState (theme s) (Array_fill 9 null) true (scores s)
                    (mkWinnerInfo null []) false).
Proof. reflexivity. Qed.

Lemma step_resetScores s :
  step s ResetScores
  = Normal (mkState (theme s) (Array_fill 9 null) true (Scores.mk 0 0 0)
                    (mkWinnerInfo null []) false).
Proof. reflexivity. Qed.

Lemma step_toggleTheme s :
  step s ToggleTheme
  = Normal (mkState (if decide (theme s = light) then dark else light)
                    (board s) (xIsNext s) (scores s) (winnerInfo s) (isDraw s)).
Proof. reflexivity. Qed.

Lemma step_total s e : exists s', step s e = Normal s'.
Proof.
  destruct e; [rewrite step_click | rewrite step_newGame
              | rewrite step_resetScores | rewrite step_toggleTheme]; eauto.
Qed.

(** ** Arrays: reading after writing *)

Lemma lookup_array_set (a : Array) i j v :
  array_set a i v !! j
  = if decide (i = j) then Some (Some v)
    else if decide (j < length a) then a !! j
    else if decide (j < i) then Some None else None.
Proof.
  unfold array_set. destruct (decide (i < length a)) as [Hi|Hi].
  - rewrite list_lookup_insert.
    destruct (decide (i = j)) as [->|Hne].
    + rewrite decide_True; [reflexivity | split; [reflexivity | exact Hi]].
    + rewrite decide_False by tauto.
      destruct (decide (j < length a)) as [|Hj]; [reflexivity|].
      rewrite decide_False by lia. apply lookup_ge_None. lia.
  - destruct (decide (j < length a)) as [Hj|Hj].
    + rewrite decide_False by lia. apply lookup_app_l. exact Hj.
    + rewrite lookup_app_r by lia.
      destruct (decide (i = j)) as [->|Hne].
      * rewrite lookup_app_r by (rewrite length_replicate; lia).
        rewrite length_replicate, Nat.sub_diag. reflexivity.
      * destruct (decide (j < i)) as [Hlt|Hge].
        -- rewrite lookup_app_l by (rewrite length_replicate; lia).
           apply lookup_replicate_2. lia.
        -- apply lookup_ge_None.
           rewrite length_app, length_replicate. cbn. lia.
Qed.

Lemma get_array_set_eq (a : Array) i v : get (array_set a i v) i = v.
Proof.
  unfold get. rewrite lookup_array_set, decide_True by reflexivity. reflexivity.
Qed.

Lemma get_array_set_ne (a : Array) i j v :
  i <> j -> get (array_set a i v) j = get a j.
Proof.
  intros Hne. unfold get. rewrite lookup_array_set, decide_False by exact Hne.
  destruct (decide (j < length a)) as [|Hj]; [reflexivity|].
  assert (a !! j = None) as -> by (apply lookup_ge_None; lia).
  destruct (decide (j < i)); reflexivity.
Qed.

Lemma length_array_set (a : Array) i v :
  length (array_set a i v) = Nat.max (length a) (S i).
Proof.
  unfold array_set. destruct (decide (i < length a)).
  - rewrite length_insert. lia.
  - rewrite !length_app, length_replicate. cbn. lia.
Qed.

Lemma get_null_lookup (a : Array) i :
  get a i = null -> a !! i = Some (Some null).
Proof.
  unfold get. destruct (a !! i) as [[v|]|]; try discriminate.
  intros ->. reflexivity.
Qed.

Lemma array_set_in_range (a : Array) i v :
  i < length a -> array_set a i v = <[i := Some v]> a.
Proof. intros Hi. unfold array_set. rewrite decide_True by exact Hi. reflexivity. Qed.

(** ** The win scan *)

Lemma line_matches_spec (sq : Array) a b c :
  line_matches sq (a, b, c) = true
  <-> exists m, get sq a = str m /\ get sq b = str m /\ get sq c = str m.
Proof.
  unfold line_matches, strict_eq. split.
  - intros H. apply andb_true_iff in H as [H Hbc].
    apply andb_true_iff in H as [Ha Hab].
    apply bool_decide_eq_true in Hab, Hbc.
    destruct (get sq a) as [| |m] eqn:Ea; try discriminate.
    exists m. rewrite <- Hbc, <- Hab. auto.
  - intros (m & -> & -> & ->). cbn.
    rewrite bool_decide_eq_true_2 by reflexivity. reflexivity.
Qed.

Lemma scan_find tbl (sq : Array) :
  match List.find (line_matches sq) tbl with
  | Some (a, b, c) => scan tbl sq = mkWinnerInfo (get sq a) [a; b; c]
  | None => scan tbl sq = mkWinnerInfo null []
  end.
Proof.
  induction tbl as [|[[a b] c] tbl IH]; [reflexivity|].
  cbn [List.find scan]. destruct (line_matches sq (a, b, c)); [reflexivity | exact IH].
Qed.

Lemma scan_winner_existsb tbl (sq : Array) :
  truthy (winner (scan tbl sq)) = existsb (line_matches sq) tbl.
Proof.
  induction tbl as [|[[a b] c] tbl IH]; [reflexivity|].
  cbn [existsb scan]. destruct (line_matches sq (a, b, c)) eqn:E; [|exact IH].
  apply line_matches_spec in E as (m & -> & _). reflexivity.
Qed.

Lemma scan_winner_mark tbl (sq : Array) m :
  (forall a b c, (a, b, c) ∈ tbl -> line_matches sq (a, b, c) = true ->
                 get sq a = str m) ->
  winner (scan tbl sq) = str m \/ winner (scan tbl sq) = null.
Proof.
  intros H. induction tbl as [|[[a b] c] tbl IH]; [right; reflexivity|].
  cbn [scan]. destruct (line_matches sq (a, b, c)) eqn:E.
  - left. cbn. apply (H a b c); [left | exact E].
  - apply IH. intros a' b' c' Hin. apply H. right. exact Hin.
Qed.

(** Writing a mark can only complete triples that go through the written
    cell, and those hold the written mark. *)
Lemma line_matches_array_set (sq : Array) i m a b c :
  line_matches (array_set sq i (str m)) (a, b, c) = true ->
  line_matches sq (a, b, c) = true
  \/ ((i = a \/ i = b \/ i = c) /\ get (array_set sq i (str m)) a = str m).
Proof.
  intros H. apply line_matches_spec in H as (m' & Ha & Hb & Hc).
  destruct (decide (i = a)) as [->|Hia].
  { right. split; [auto | apply get_array_set_eq]. }
  destruct (decide (i = b)) as [->|Hib].
  { right. rewrite get_array_set_eq in Hb. split; [auto | congruence]. }
  destruct (decide (i = c)) as [->|Hic].
  { right. rewrite get_array_set_eq in Hc. split; [auto | congruence]. }
  left. apply line_matches_spec. exists m'.
  rewrite get_array_set_ne in Ha, Hb, Hc by assumption. auto.
Qed.

(** ** The state invariant *)

Lemma board_ok_fill : board_ok (Array_fill 9 null).
Proof.
  split; [cbn; lia|]. intros i slot H.
  apply lookup_replicate in H as [-> Hi].
  rewrite decide_True by exact Hi. left. reflexivity.
Qed.

Lemma board_ok_array_set (a : Array) i m :
  board_ok a -> board_ok (array_set a i (str m)).
Proof.
  intros [Hlen Hslots]. split.
  - rewrite length_array_set. lia.
  - intros j slot. rewrite lookup_array_set.
    destruct (decide (i = j)) as [->|Hne].
    + intros [= <-]. destruct (decide (j < 9)); right; eauto.
    + destruct (decide (j < length a)) as [Hj|Hj]; [apply Hslots|].
      destruct (decide (j < i)); [|discriminate].
      intros [= <-]. rewrite decide_False by lia. left. reflexivity.
Qed.

Lemma every_filled9 (a : Array) : board_ok a -> every Boolean a = filled9 a.
Proof.
  intros [Hlen Hslots]. apply eq_true_iff_eq.
  unfold every, filled9. rewrite !forallb_forall. split.
  - intros H i Hi. apply in_seq in Hi.
    destruct (lookup_lt_is_Some_2 a i) as [slot Hslot]; [lia|].
    specialize (H slot). unfold get. rewrite Hslot.
    pose proof (Hslots i slot Hslot) as Hs. rewrite decide_True in Hs by lia.
    destruct Hs as [->|[m ->]].
    + apply H. apply list_elem_of_In, list_elem_of_lookup. eauto.
    + reflexivity.
  - intros H slot Hin.
    apply list_elem_of_In, list_elem_of_lookup in Hin as [i Hi].
    pose proof (Hslots i slot Hi) as Hs.
    destruct (decide (i < 9)) as [Hlt|Hge].
    + specialize (H i). unfold get in H. rewrite Hi in H.
      destruct slot as [v|]; [|reflexivity].
      apply H. apply in_seq. lia.
    + destruct Hs as [->|[m ->]]; reflexivity.
Qed.

Lemma Inv_init : Inv init.
Proof. split; [reflexivity | reflexivity | apply board_ok_fill]. Qed.

Lemma Inv_step s e s' : Inv s -> step s e = Normal s' -> Inv s'.
Proof.
  intros [Hw Hd Hb]. destruct e.
  - rewrite step_click.
    destruct (gameOver s || truthy (get (board s) idx)); intros [= <-].
    + split; assumption.
    + split; cbn; [reflexivity | reflexivity | apply board_ok_array_set, Hb].
  - rewrite step_newGame. intros [= <-].
    split; [reflexivity | reflexivity | apply board_ok_fill].
  - rewrite step_resetScores. intros [= <-].
    split; [reflexivity | reflexivity | apply board_ok_fill].
  - rewrite step_toggleTheme. intros [= <-]. split; assumption.
Qed.

Lemma reachable_Inv s : reachable s -> Inv s.
Proof.
  induction 1 as [|s e s' _ IH Hstep]; [apply Inv_init | eapply Inv_step; eauto].
Qed.

Lemma Inv_no_match s :
  Inv s -> gameOver s = false ->
  forall l, l ∈ lines -> line_matches (board s) l = false.
Proof.
  intros [Hw _ _] Hover l Hin.
  apply orb_false_iff in Hover as [Hwin _]. unfold Boolean in Hwin.
  rewrite Hw in Hwin. unfold calculateWinner in Hwin.
  rewrite scan_winner_existsb in Hwin.
  destruct (line_matches (board s) l) eqn:E; [|reflexivity].
  rewrite <- Hwin. symmetry. apply existsb_exists. exists l.
  split; [apply list_elem_of_In, Hin | exact E].
Qed.

Lemma play_reachable moves : forall s s',
  reachable s -> play s moves = Some s' -> reachable s'.
Proof.
  induction moves as [|idx rest IH]; intros s s' Hs; cbn [play].
  - intros [= <-]. exact Hs.
  - destruct (accepted s idx); [|discriminate].
    destruct (step s (Click idx)) as [s1|] eqn:E; [|discriminate].
    apply IH. eapply reachable_step; eauto.
Qed.

Lemma outcome_gameOver s : outcome s <> IN_PROGRESS <-> gameOver s = true.
Proof.
  unfold outcome, gameOver, Boolean.
  destruct (winner (winnerInfo s)), (isDraw s); cbn; split; congruence.
Qed.

Lemma outcome_in_progress s : outcome s = IN_PROGRESS <-> gameOver s = false.
Proof.
  unfold outcome, gameOver, Boolean.
  destruct (winner (winnerInfo s)), (isDraw s); cbn; split; congruence.
Qed.

Lemma step_click_over s idx : gameOver s = true -> step s (Click idx) = Normal s.
Proof. intros H. rewrite step_click, H. reflexivity. Qed.

Lemma run_clicks_over s idxs :
  gameOver s = true -> run s (Click <$> idxs) = Normal s.
Proof.
  intros H. induction idxs as [|idx rest IH]; [reflexivity|].
  cbn [fmap list_fmap run]. rewrite step_click_over by exact H. exact IH.
Qed.

(** ** Rejected moves *)

(** C2.  A click while the round is over (a winner or a draw is shown), or
    on a cell that already holds a mark, completes normally and leaves the
    whole state (board, turn, outcome, scores, theme) as it was; once the
    round is over this holds for any further series of clicks. *)
Theorem applyMove_rejected_noop s idx rest :
  outcome s <> IN_PROGRESS \/ (exists m, get (board s) idx = str m) ->
  step s (Click idx) = Normal s
  /\ (outcome s <> IN_PROGRESS -> run s (Click <$> rest) = Normal s).
Proof.
  intros H. split.
  - rewrite step_click. destruct H as [H|[m H]].
    + apply outcome_gameOver in H. rewrite H. reflexivity.
    + rewrite H. cbn. rewrite orb_true_r. reflexivity.
  - intros Hover. apply run_clicks_over, outcome_gameOver, Hover.
Qed.

Lemma applyMove_rejected_noop_witness :
  let s := {| theme := light;
              board := [Some (str X); Some (str X); Some (str X);
                        Some (str O); Some (str O); Some null;
                        Some null; Some null; Some null];
              xIsNext := false;
              scores := Scores.mk 1 0 0;
              winnerInfo := mkWinnerInfo (str X) [0; 1; 2];
              isDraw := false |} in
  outcome s = WIN X [0; 1; 2]
  /\ step s (Click 5) = Normal s
  /\ run s (Click <$> [5; 6; 0]) = Normal s.
Proof.
  intros s. split; [reflexivity|].
  destruct (applyMove_rejected_noop s 5 [5; 6; 0]) as [H1 H2].
  - left. discriminate.
  - split; [exact H1 | apply H2; discriminate].
Defined.

(** ** Indices outside the board *)

Lemma click_at_eq c k :
  click_at c k
  = Normal
      (if gameOver (hooks c) || truthy (object_get (boardObject c) k) then c
       else
         let nextBoard :=
           object_set (mkArrayObject (board (hooks c)) ∅) k
                      (str (turn (hooks c))) in
         let res := calculateWinner (elements nextBoard) in
         let draw :=
           negb (truthy (winner res)) && every Boolean (elements nextBoard) in
         mkComponent
           (mkState (theme (hooks c)) (elements nextBoard)
                    (negb (xIsNext (hooks c)))
                    (click_scores (hooks c) res draw) res draw)
           (properties nextBoard)).
Proof.
  unfold click_at, handleSquareClick_at, gameOver, Boolean, click_scores,
    object_slice, slice.
  cbn [elements boardObject].
  destruct (truthy (winner (winnerInfo (hooks c))) || isDraw (hooks c)
            || truthy (object_get (boardObject c) k)); [reflexivity|].
  cbv zeta.
  destruct (winner (calculateWinner _)); cbn; try reflexivity;
    destruct (every truthy _); reflexivity.
Qed.

(** On an array index the six cells evolve as under [handleSquareClick]
    above, whatever properties the board object carries; the properties
    are dropped unless the click is ignored. *)
Lemma click_at_index c k :
  is_array_index k = true ->
  click_at c k
  = match step (hooks c) (Click (Z.to_nat k)) with
    | Normal s' =>
        Normal (mkComponent s'
                  (if gameOver (hooks c)
                      || truthy (get (board (hooks c)) (Z.to_nat k))
                   then boardProperties c else ∅))
    | Throw e => Throw e
    end.
Proof.
  intros Hk. rewrite click_at_eq, step_click.
  unfold object_get, object_set. rewrite Hk. cbn [elements boardObject properties].
  destruct (gameOver (hooks c) || truthy (get (board (hooks c)) (Z.to_nat k)));
    [destruct c|]; reflexivity.
Qed.

Lemma is_array_index_cell i : (0 <= i <= 8)%Z -> is_array_index i = true.
Proof. intros Hi. apply bool_decide_eq_true. lia. Qed.

(** C3, as the code has it.  A click with any integer outside 0..8 as
    index raises nothing: it completes normally.  When the round is over
    or [board[idx]] already reads as a mark, the click is ignored and the
    state is unchanged.  Otherwise the handler goes on as for any move:
    [board[idx]] becomes the current mark, the cells 0..8 stay as they
    were and the turn flips; the mark extends the array when [idx] is an
    array index (9 to 2^32 - 2) and is stored as a plain property, the
    elements and the length staying as they were, when it is not
    (negative, or 2^32 - 1 and above). *)
Theorem applyMove_out_of_range_silent (c : Component) (idx : Z) :
  ~ (0 <= idx <= 8)%Z ->
  exists c',
    click_at c idx = Normal c'
    /\ (gameOver (hooks c) || truthy (object_get (boardObject c) idx) = true ->
        c' = c)
    /\ (gameOver (hooks c) || truthy (object_get (boardObject c) idx) = false ->
        object_get (boardObject c') idx = str (turn (hooks c))
        /\ (forall i, (0 <= i <= 8)%Z ->
              object_get (boardObject c') i = object_get (boardObject c) i)
        /\ xIsNext (hooks c') = negb (xIsNext (hooks c))
        /\ (is_array_index idx = true ->
            board (hooks c')
            = array_set (board (hooks c)) (Z.to_nat idx) (str (turn (hooks c))))
        /\ (is_array_index idx = false ->
            board (hooks c') = board (hooks c)
            /\ boardProperties c' = {[ idx := str (turn (hooks c)) ]})).
Proof.
  intros Hidx. rewrite click_at_eq.
  destruct (gameOver (hooks c) || truthy (object_get (boardObject c) idx)) eqn:G.
  - exists c. split; [reflexivity|]. split; [reflexivity | discriminate].
  - eexists. split; [reflexivity|]. split; [discriminate|]. intros _.
    cbv zeta. unfold object_get, object_set.
    cbn [hooks boardProperties boardObject elements properties board xIsNext].
    destruct (is_array_index idx) eqn:Hk;
      cbn [hooks boardProperties boardObject elements properties board xIsNext].
    + split; [apply get_array_set_eq|]. split; [|split; [reflexivity|]].
      * intros i Hi. rewrite (is_array_index_cell i Hi).
        apply get_array_set_ne. apply bool_decide_eq_true in Hk. lia.
      * split; [reflexivity | discriminate].
    + split; [rewrite lookup_insert_eq; reflexivity|].
      split; [|split; [reflexivity|]].
      * intros i Hi. rewrite (is_array_index_cell i Hi). reflexivity.
      * split; [discriminate|]. intros _. split; [reflexivity|].
        apply insert_empty.
Qed.

Lemma applyMove_out_of_range_silent_witness :
  let c := mkComponent init ∅ in
  ~ (0 <= 4294967295 <= 8)%Z
  /\ exists c', click_at c 4294967295 = Normal c'
                /\ board (hooks c') = Array_fill 9 null
                /\ boardProperties c' = {[ 4294967295%Z := str X ]}
                /\ object_get (boardObject c') 4294967295 = str X
                /\ xIsNext (hooks c') = false.
Proof.
  intros c.
  assert (Hout : ~ (0 <= 4294967295 <= 8)%Z) by lia.
  split; [exact Hout|].
  destruct (applyMove_out_of_range_silent c 4294967295 Hout)
    as (c' & Hstep & _ & H).
  destruct (H eq_refl) as (Hget & _ & Hx & _ & Hprop).
  destruct (Hprop eq_refl) as [Hb Hp].
  exists c'. split; [exact Hstep|]. split; [exact Hb|]. split; [exact Hp|].
  split; [exact Hget | exact Hx].
Defined.

(** C3, as stated, fails: index 9 on the first render raises nothing and is
    played as a move. *)
Lemma applyMove_out_of_range_no_error :
  8 < 9
  /\ (forall e, step init (Click 9) <> Throw e)
  /\ step init (Click 9)
     = Normal {| theme := light;
                 board := Array_fill 9 null ++ [Some (str X)];
                 xIsNext := false;
                 scores := Scores.mk 0 0 0;
                 winnerInfo := mkWinnerInfo null [];
                 isDraw := false |}.
Proof. split; [lia|]. split; [discriminate | reflexivity]. Qed.

(** ** New game and reset *)

(** C7.  [newGame] always completes; it leaves nine empty cells, X to move,
    the round in progress, and the three counters as they were. *)
Theorem newGame_resets_round s :
  exists s',
    step s NewGame = Normal s'
    /\ board s' = replicate 9 (Some null)
    /\ xIsNext s' = true /\ turn s' = X
    /\ outcome s' = IN_PROGRESS
    /\ scores s' = scores s.
Proof. eexists. rewrite step_newGame. repeat split. Qed.

(** C8.  [resetScores] always completes; it leaves the board, the turn and
    the outcome exactly as [newGame] does (nine empty cells, X to move, the
    round in progress) and the three counters at zero. *)
Theorem resetScores_resets_all s :
  exists s1 s2,
    step s NewGame = Normal s1
    /\ step s ResetScores = Normal s2
    /\ board s2 = board s1 /\ xIsNext s2 = xIsNext s1
    /\ winnerInfo s2 = winnerInfo s1 /\ isDraw s2 = isDraw s1
    /\ theme s2 = theme s1
    /\ board s2 = replicate 9 (Some null)
    /\ turn s2 = X
    /\ outcome s2 = IN_PROGRESS
    /\ Scores.X (scores s2) = 0
    /\ Scores.O (scores s2) = 0
    /\ Scores.draws (scores s2) = 0.
Proof.
  eexists _, _. rewrite step_newGame, step_resetScores. repeat split.
Qed.

(** ** The row-win scenario *)

(** C9.  From a fresh round with zeroed scores the moves 0, 3, 1, 4, 2 are
    all accepted and put X, O, X, O, X on these cells: after the first four
    the round is in progress with X on 0 and 1, O on 3 and 4 and X to move;
    the fifth ends it with X winning on [0, 1, 2], the scores being X = 1,
    O = 0, draws = 0, and nothing else changed. *)
Theorem row_win_scenario s0 :
  fresh s0 -> scores s0 = Scores.mk 0 0 0 ->
  exists s4 s,
    play s0 [0; 3; 1; 4] = Some s4
    /\ board s4 = [Some (str X); Some (str X); Some null;
                   Some (str O); Some (str O); Some null;
                   Some null; Some null; Some null]
    /\ outcome s4 = IN_PROGRESS /\ turn s4 = X
    /\ play s0 [0; 3; 1; 4; 2] = Some s
    /\ s = {| theme := theme s0;
              board := [Some (str X); Some (str X); Some (str X);
                        Some (str O); Some (str O); Some null;
                        Some null; Some null; Some null];
              xIsNext := false;
              scores := Scores.mk 1 0 0;
              winnerInfo := mkWinnerInfo (str X) [0; 1; 2];
              isDraw := false |}
    /\ outcome s = WIN X [0; 1; 2]
    /\ scores s = Scores.mk 1 0 0.
Proof.
  destruct s0 as [th b x sc w d].
  intros (Hb & Hx & Hw & Hd) Hsc. cbn in *. subst.
  exists {| theme := th;
            board := [Some (str X); Some (str X); Some null;
                      Some (str O); Some (str O); Some null;
                      Some null; Some null; Some null];
            xIsNext := true;
            scores := Scores.mk 0 0 0;
            winnerInfo := mkWinnerInfo null [];
            isDraw := false |}.
  eexists.
  split; [vm_compute; reflexivity|]. split; [reflexivity|].
  split; [reflexivity|]. split; [reflexivity|].
  split; [vm_compute; reflexivity|]. split; [reflexivity|].
  split; reflexivity.
Qed.

Lemma row_win_scenario_witness :
  fresh init /\ scores init = Scores.mk 0 0 0
  /\ exists s, play init [0; 3; 1; 4; 2] = Some s
               /\ board s = [Some (str X); Some (str X); Some (str X);
                             Some (str O); Some (str O); Some null;
                             Some null; Some null; Some null]
               /\ outcome s = WIN X [0; 1; 2]
               /\ scores s = Scores.mk 1 0 0.
Proof.
  assert (Hf : fresh init) by (repeat split).
  split; [exact Hf|]. split; [reflexivity|].
  destruct (row_win_scenario init Hf eq_refl)
    as (s4 & s & _ & _ & _ & _ & Hplay & Hs & Hout & Hsc).
  exists s. split; [exact Hplay|]. split; [rewrite Hs; reflexivity|].
  split; [exact Hout | exact Hsc].
Defined.

(** ** Theme and game *)

(** C10.  Clicks, [newGame] and [resetScores] leave the theme alone;
    [toggleTheme] leaves board, turn, winner, draw flag and scores alone. *)
Theorem theme_game_independent s :
  (forall idx, exists s', step s (Click idx) = Normal s' /\ theme s' = theme s)
  /\ (exists s', step s NewGame = Normal s' /\ theme s' = theme s)
  /\ (exists s', step s ResetScores = Normal s' /\ theme s' = theme s)
  /\ (exists s', step s ToggleTheme = Normal s'
                 /\ board s' = board s /\ xIsNext s' = xIsNext s
                 /\ winnerInfo s' = winnerInfo s /\ isDraw s' = isDraw s
                 /\ outcome s' = outcome s
                 /\ scores s' = scores s).
Proof.
  split; [|split; [|split]].
  - intros idx. rewrite step_click.
    destruct (gameOver s || truthy (get (board s) idx)); eexists; split; reflexivity.
  - eexists. rewrite step_newGame. split; reflexivity.
  - eexists. rewrite step_resetScores. split; reflexivity.
  - eexists. rewrite step_toggleTheme. repeat split.
Qed.

(** ** Exactly one outcome *)

(** C6.  In every reachable state the winner and the draw flag are never
    both set; the round is in progress exactly when neither is set, won
    exactly when the winner is set, drawn exactly when the draw flag is. *)
Theorem outcome_exclusive s :
  reachable s ->
  ~ (Boolean (winner (winnerInfo s)) = true /\ isDraw s = true)
  /\ (outcome s = IN_PROGRESS
      <-> Boolean (winner (winnerInfo s)) = false /\ isDraw s = false)
  /\ ((exists m l, outcome s = WIN m l)
      <-> Boolean (winner (winnerInfo s)) = true)
  /\ (outcome s = DRAW <-> isDraw s = true).
Proof.
  intros Hs. apply reachable_Inv in Hs as [_ Hd _].
  unfold outcome, Boolean in *.
  destruct (winner (winnerInfo s)) as [| |m], (isDraw s); cbn in *;
    try discriminate;
    (split; [intros [? ?]; discriminate|]);
    (split; [split; [intros; try discriminate; auto | intros [? ?]; congruence]|]);
    (split; [split; [intros (? & ? & ?); congruence | intros; try discriminate; eauto]|]);
    split; congruence.
Qed.

Lemma outcome_exclusive_witness :
  let s := {| theme := light;
              board := [Some (str X); Some (str O); Some (str X);
                        Some (str X); Some (str X); Some (str O);
                        Some (str O); Some (str X); Some (str O)];
              xIsNext := false;
              scores := Scores.mk 0 0 1;
              winnerInfo := mkWinnerInfo null [];
              isDraw := true |} in
  reachable s
  /\ outcome s = DRAW
  /\ ~ (Boolean (winner (winnerInfo s)) = true /\ isDraw s = true).
Proof.
  intros s.
  assert (Hr : reachable s).
  { apply (play_reachable [0; 1; 2; 5; 3; 6; 4; 8; 7] init s);
      [apply reachable_init | reflexivity]. }
  split; [exact Hr|].
  destruct (outcome_exclusive s Hr) as (Hno & _ & _ & Hdraw).
  split; [apply Hdraw; reflexivity | exact Hno].
Defined.

(** ** Accepted moves *)

Lemma accepted_inv s idx :
  accepted s idx = true ->
  gameOver s = false /\ idx <= 8 /\ get (board s) idx = null.
Proof.
  unfold accepted. intros H.
  apply andb_true_iff in H as [H Hnull]. apply andb_true_iff in H as [Hover Hidx].
  apply negb_true_iff in Hover.
  apply bool_decide_eq_true in Hidx, Hnull. auto.
Qed.

Lemma step_click_accepted s idx :
  accepted s idx = true ->
  step s (Click idx)
  = Normal
      (let nextBoard := <[idx := Some (str (turn s))]> (board s) in
       let res := calculateWinner nextBoard in
       let draw := negb (truthy (winner res)) && every Boolean nextBoard in
       mkState (theme s) nextBoard (negb (xIsNext s))
               (click_scores s res draw) res draw).
Proof.
  intros H. apply accepted_inv in H as (Hover & _ & Hnull).
  rewrite step_click, Hover, Hnull. cbn [truthy orb].
  rewrite array_set_in_range; [reflexivity|].
  apply get_null_lookup in Hnull. eapply lookup_lt_Some, Hnull.
Qed.

Lemma accepted_array_set s idx :
  accepted s idx = true ->
  <[idx := Some (str (turn s))]> (board s)
  = array_set (board s) idx (str (turn s)).
Proof.
  intros H. apply accepted_inv in H as (_ & _ & Hnull).
  symmetry. apply array_set_in_range.
  apply get_null_lookup in Hnull. eapply lookup_lt_Some, Hnull.
Qed.

(** After an accepted move in a state of the component, a matching triple
    goes through the played cell and holds the mover's mark. *)
Lemma accepted_match_is_mover s idx a b c :
  Inv s -> accepted s idx = true -> (a, b, c) ∈ lines ->
  line_matches (<[idx := Some (str (turn s))]> (board s)) (a, b, c) = true ->
  (idx = a \/ idx = b \/ idx = c)
  /\ get (<[idx := Some (str (turn s))]> (board s)) a = str (turn s).
Proof.
  intros HI Hacc Hin. rewrite (accepted_array_set s idx Hacc). intros Hm.
  apply line_matches_array_set in Hm as [Hold|Hnew]; [|exact Hnew].
  apply accepted_inv in Hacc as (Hover & _).
  rewrite (Inv_no_match s HI Hover _ Hin) in Hold. discriminate.
Qed.

Lemma turn_flip s s' : xIsNext s' = negb (xIsNext s) -> turn s' = other (turn s).
Proof. unfold turn. intros ->. destruct (xIsNext s); reflexivity. Qed.

(** C1, as the code has it.  An accepted move in a state of the component
    writes the current mark into the cell and flips the turn; then, if a
    triple of the table matches, the first one in scan order, the outcome is
    a win of the current mark on that triple and that mark's counter grows
    by one; else if the nine cells are filled the outcome is a draw and the
    draws counter grows by one; else the round stays in progress and the
    scores are as they were.  The turn flips in all three cases. *)
Theorem applyMove_accepted s idx :
  reachable s -> accepted s idx = true ->
  exists s',
    step s (Click idx) = Normal s'
    /\ board s' = <[idx := Some (str (turn s))]> (board s)
    /\ get (board s') idx = str (turn s)
    /\ turn s' = other (turn s)
    /\ match first_match (board s') with
       | Some (a, b, c) =>
           outcome s' = WIN (turn s) [a; b; c]
           /\ at_key (scores s') (turn s) = at_key (scores s) (turn s) + 1
           /\ at_key (scores s') (other (turn s))
              = at_key (scores s) (other (turn s))
           /\ Scores.draws (scores s') = Scores.draws (scores s)
       | None =>
           if filled9 (board s') then
             outcome s' = DRAW
             /\ Scores.draws (scores s') = Scores.draws (scores s) + 1
             /\ Scores.X (scores s') = Scores.X (scores s)
             /\ Scores.O (scores s') = Scores.O (scores s)
           else
             outcome s' = IN_PROGRESS /\ scores s' = scores s
       end.
Proof.
  intros Hr Hacc. pose proof (reachable_Inv s Hr) as HI.
  rewrite (step_click_accepted s idx Hacc). eexists. split; [reflexivity|].
  cbv zeta. cbn [board scores].
  split; [reflexivity|].
  split; [rewrite (accepted_array_set s idx Hacc); apply get_array_set_eq|].
  split; [apply turn_flip; reflexivity|].
  assert (Hok : board_ok (<[idx := Some (str (turn s))]> (board s))).
  { rewrite (accepted_array_set s idx Hacc). apply board_ok_array_set, HI. }
  unfold first_match, outcome, click_scores, calculateWinner.
  cbn [winnerInfo isDraw].
  pose proof (scan_find lines (<[idx := Some (str (turn s))]> (board s))) as Hscan.
  destruct (List.find _ lines) as [[[a b] c]|] eqn:F.
  - apply find_some in F as [Hin Hm]. apply list_elem_of_In in Hin.
    destruct (accepted_match_is_mover s idx a b c HI Hacc Hin Hm) as [_ Hget].
    rewrite Hscan. cbn [winner line]. rewrite Hget.
    split; [reflexivity|]. destruct (turn s); cbn; auto.
  - rewrite Hscan. cbn [winner line truthy negb andb].
    rewrite (every_filled9 _ Hok).
    destruct (filled9 _); cbn; auto.
Qed.

Lemma applyMove_accepted_witness :
  reachable init /\ accepted init 4 = true
  /\ exists s', step init (Click 4) = Normal s'
                /\ get (board s') 4 = str X /\ turn s' = O.
Proof.
  split; [apply reachable_init|]. split; [reflexivity|].
  destruct (applyMove_accepted init 4 reachable_init eq_refl)
    as (s' & Hstep & _ & Hget & Hturn & _).
  exists s'. split; [exact Hstep|]. split; [exact Hget | exact Hturn].
Defined.

(** C1, as stated, fails on its last clause: the move that completes the
    top row, after 0, 3, 1, 4, is accepted and wins for X, and the turn
    flips from X to O all the same. *)
Lemma applyMove_win_flips_turn :
  let s := {| theme := light;
              board := [Some (str X); Some (str X); Some null;
                        Some (str O); Some (str O); Some null;
                        Some null; Some null; Some null];
              xIsNext := true;
              scores := Scores.mk 0 0 0;
              winnerInfo := mkWinnerInfo null [];
              isDraw := false |} in
  let s' := {| theme := light;
               board := [Some (str X); Some (str X); Some (str X);
                         Some (str O); Some (str O); Some null;
                         Some null; Some null; Some null];
               xIsNext := false;
               scores := Scores.mk 1 0 0;
               winnerInfo := mkWinnerInfo (str X) [0; 1; 2];
               isDraw := false |} in
  play init [0; 3; 1; 4] = Some s
  /\ accepted s 2 = true
  /\ step s (Click 2) = Normal s'
  /\ outcome s' = WIN X [0; 1; 2]
  /\ turn s = X /\ turn s' = O.
Proof. cbv zeta. repeat split. Qed.

(** ** Several triples at once *)

Lemma existsb_Permutation {A} (f : A -> bool) (l1 l2 : list A) :
  l1 ≡ₚ l2 -> existsb f l1 = existsb f l2.
Proof.
  intros HP. apply eq_true_iff_eq. rewrite !existsb_exists.
  split; intros (x & Hin & Hx); exists x; split; try exact Hx.
  - eapply Permutation_in; eauto.
  - eapply Permutation_in; [symmetry|]; eauto.
Qed.

(** C4, as the code has it.  After an accepted move in a state reached from
    the first render by accepted moves, every matching triple goes through
    the played cell and holds the mover's mark (there can be more than one);
    so whatever the order in which the table is scanned, the scan reports
    the same winner, and reports one exactly when some triple matches. *)
Theorem win_scan_order_irrelevant moves s idx s' :
  play init moves = Some s ->
  accepted s idx = true ->
  step s (Click idx) = Normal s' ->
  (forall a b c, (a, b, c) ∈ lines ->
     line_matches (board s') (a, b, c) = true ->
     (idx = a \/ idx = b \/ idx = c) /\ get (board s') a = str (turn s))
  /\ (forall tbl, tbl ≡ₚ lines ->
        winner (scan tbl (board s')) = winner (calculateWinner (board s')))
  /\ (winner (calculateWinner (board s')) = str (turn s)
      <-> exists l, l ∈ lines /\ line_matches (board s') l = true)
  /\ (winner (calculateWinner (board s')) = null
      <-> forall l, l ∈ lines -> line_matches (board s') l = false).
Proof.
  intros Hplay Hacc. rewrite (step_click_accepted s idx Hacc).
  intros [= <-]. cbv zeta. cbn [board].
  assert (HI : Inv s).
  { apply reachable_Inv. eapply play_reachable; [apply reachable_init | exact Hplay]. }
  set (nb := <[idx := Some (str (turn s))]> (board s)).
  assert (Hmover : forall a b c, (a, b, c) ∈ lines ->
            line_matches nb (a, b, c) = true ->
            (idx = a \/ idx = b \/ idx = c) /\ get nb a = str (turn s)).
  { intros a b c. apply accepted_match_is_mover; assumption. }
  assert (Hcases : forall tbl, tbl ≡ₚ lines ->
            (winner (scan tbl nb) = str (turn s)
             /\ existsb (line_matches nb) lines = true)
            \/ (winner (scan tbl nb) = null
                /\ existsb (line_matches nb) lines = false)).
  { intros tbl HP.
    rewrite <- (existsb_Permutation _ _ _ HP), <- scan_winner_existsb.
    destruct (scan_winner_mark tbl nb (turn s)) as [E|E].
    - intros a b c Hin Hm. apply (Hmover a b c); [|exact Hm].
      rewrite <- HP. exact Hin.
    - left. rewrite E. auto.
    - right. rewrite E. auto. }
  assert (Hex : existsb (line_matches nb) lines = true
                <-> exists l, l ∈ lines /\ line_matches nb l = true).
  { rewrite existsb_exists.
    split; intros (l & Hin & Hl); exists l;
      (split; [apply list_elem_of_In, Hin | exact Hl]). }
  split; [exact Hmover|]. unfold calculateWinner.
  split; [|split].
  - intros tbl HP.
    destruct (Hcases tbl HP) as [[E1 B1]|[E1 B1]],
             (Hcases lines (reflexivity _)) as [[E2 B2]|[E2 B2]]; congruence.
  - destruct (Hcases lines (reflexivity _)) as [[E B]|[E B]]; rewrite E.
    + split; [intros _; apply Hex, B | reflexivity].
    + split; [discriminate|]. intros H. apply Hex in H. congruence.
  - destruct (Hcases lines (reflexivity _)) as [[E B]|[E B]]; rewrite E.
    + split; [discriminate|]. intros Hnone.
      apply Hex in B as (l & Hin & Hl).
      rewrite (Hnone l Hin) in Hl. discriminate.
    + split; [intros _|reflexivity]. intros l Hin.
      destruct (line_matches nb l) eqn:El; [|reflexivity].
      assert (existsb (line_matches nb) lines = true) by (apply Hex; eauto).
      congruence.
Qed.

Lemma win_scan_order_irrelevant_witness :
  let s := {| theme := light;
              board := [Some null; Some (str X); Some (str X);
                        Some (str X); Some (str O); Some (str O);
                        Some (str X); Some (str O); Some (str O)];
              xIsNext := true;
              scores := Scores.mk 0 0 0;
              winnerInfo := mkWinnerInfo null [];
              isDraw := false |} in
  let b' := [Some (str X); Some (str X); Some (str X);
             Some (str X); Some (str O); Some (str O);
             Some (str X); Some (str O); Some (str O)] in
  play init [1; 4; 2; 5; 3; 7; 6; 8] = Some s
  /\ accepted s 0 = true
  /\ scan (rev lines) b' = mkWinnerInfo (str X) [0; 3; 6]
  /\ calculateWinner b' = mkWinnerInfo (str X) [0; 1; 2]
  /\ winner (scan (rev lines) b') = winner (calculateWinner b').
Proof.
  intros s b'.
  assert (Hplay : play init [1; 4; 2; 5; 3; 7; 6; 8] = Some s) by reflexivity.
  assert (Hacc : accepted s 0 = true) by reflexivity.
  split; [exact Hplay|]. split; [exact Hacc|].
  split; [reflexivity|]. split; [reflexivity|].
  destruct (win_scan_order_irrelevant
              [1; 4; 2; 5; 3; 7; 6; 8] s 0
              (mkState light b' false (Scores.mk 1 0 0)
                       (mkWinnerInfo (str X) [0; 1; 2]) false)
              Hplay Hacc eq_refl) as (_ & Horder & _).
  apply (Horder (rev lines)). symmetry. apply Permutation_rev.
Defined.

(** C4, as stated, fails: after 1, 4, 2, 5, 3, 7, 6, 8 (all accepted, no
    winner yet) the accepted move 0 completes the top row and the left
    column at once. *)
Lemma two_triples_after_one_move :
  let s := {| theme := light;
              board := [Some null; Some (str X); Some (str X);
                        Some (str X); Some (str O); Some (str O);
                        Some (str X); Some (str O); Some (str O)];
              xIsNext := true;
              scores := Scores.mk 0 0 0;
              winnerInfo := mkWinnerInfo null [];
              isDraw := false |} in
  let s' := {| theme := light;
               board := [Some (str X); Some (str X); Some (str X);
                         Some (str X); Some (str O); Some (str O);
                         Some (str X); Some (str O); Some (str O)];
               xIsNext := false;
               scores := Scores.mk 1 0 0;
               winnerInfo := mkWinnerInfo (str X) [0; 1; 2];
               isDraw := false |} in
  play init [1; 4; 2; 5; 3; 7; 6; 8] = Some s
  /\ accepted s 0 = true
  /\ step s (Click 0) = Normal s'
  /\ In (0, 1, 2) lines /\ In (0, 3, 6) lines
  /\ line_matches (board s') (0, 1, 2) = true
  /\ line_matches (board s') (0, 3, 6) = true
  /\ (0, 1, 2) <> (0, 3, 6).
Proof. cbv zeta. repeat split; cbn; auto 10; discriminate. Qed.

(** ** Alternation *)

Lemma count_mark_insert m m' (a : Array) i :
  a !! i = Some (Some null) ->
  count_mark m (<[i := Some (str m')]> a)
  = count_mark m a + (if decide (m = m') then 1 else 0).
Proof.
  intros H.
  assert (Hi : i < length a) by (eapply lookup_lt_Some, H).
  assert (E : count_mark m a
              = count_mark m (take i a ++ Some null :: drop (S i) a))
    by (rewrite (take_drop_middle a i _ H); reflexivity).
  rewrite E, (insert_take_drop a i _ Hi). unfold count_mark.
  rewrite !filter_app, !filter_cons, !length_app.
  rewrite (decide_False (P := Some null = Some (str m))) by discriminate.
  destruct (decide (m = m')) as [->|Hne].
  - rewrite decide_True by reflexivity. cbn. lia.
  - rewrite decide_False by congruence. lia.
Qed.

Lemma play_alternates moves : forall s s',
  count_mark X (board s) = count_mark O (board s) + (if xIsNext s then 0 else 1) ->
  play s moves = Some s' ->
  count_mark X (board s') = count_mark O (board s') + (if xIsNext s' then 0 else 1).
Proof.
  induction moves as [|idx rest IH]; intros s s' Hs; cbn [play].
  - intros [= <-]. exact Hs.
  - destruct (accepted s idx) eqn:Hacc; [|discriminate].
    rewrite (step_click_accepted s idx Hacc). cbv zeta.
    apply IH. cbn [board xIsNext].
    apply accepted_inv in Hacc as (_ & _ & Hnull).
    apply get_null_lookup in Hnull.
    rewrite !(count_mark_insert _ _ _ _ Hnull).
    unfold turn. destruct (xIsNext s); cbn in *;
      repeat case_decide; try congruence; lia.
Qed.

(** C5.  After any series of accepted moves from a fresh round, the number
    of cells holding X equals the number holding O or exceeds it by one. *)
Theorem marks_alternate s0 moves s :
  fresh s0 -> play s0 moves = Some s ->
  count_mark X (board s) = count_mark O (board s)
  \/ count_mark X (board s) = count_mark O (board s) + 1.
Proof.
  intros (Hb & Hx & _) Hplay.
  pose proof (play_alternates moves s0 s) as H.
  rewrite Hb, Hx in H. specialize (H eq_refl Hplay).
  destruct (xIsNext s); [left | right]; lia.
Qed.

Lemma marks_alternate_witness :
  let s := {| theme := light;
              board := [Some (str O); Some null; Some null;
                        Some null; Some (str X); Some null;
                        Some null; Some null; Some (str X)];
              xIsNext := false;
              scores := Scores.mk 0 0 0;
              winnerInfo := mkWinnerInfo null [];
              isDraw := false |} in
  fresh init
  /\ play init [4; 0; 8] = Some s
  /\ count_mark X (board s) = 2 /\ count_mark O (board s) = 1
  /\ (count_mark X (board s) = count_mark O (board s)
      \/ count_mark X (board s) = count_mark O (board s) + 1).
Proof.
  intros s.
  assert (Hf : fresh init) by (repeat split).
  assert (Hplay : play init [4; 0; 8] = Some s) by reflexivity.
  split; [exact Hf|]. split; [exact Hplay|].
  split; [reflexivity|]. split; [reflexivity|].
  exact (marks_alternate init [4; 0; 8] s Hf Hplay).
Defined.

(** ** More on the win scan *)

Lemma lines_ordered a b c : (a, b, c) ∈ lines -> a < b /\ b < c /\ c <= 8.
Proof.
  intros H. apply list_elem_of_In in H. cbn in H.
  repeat (destruct H as [H|H]; [injection H as <- <- <-; lia|]).
  destruct H.
Qed.

Lemma calculateWinner_cases (sq : Array) :
  (calculateWinner sq = mkWinnerInfo null []
   /\ first_match sq = None
   /\ forall l, l ∈ lines -> line_matches sq l = false)
  \/ (exists m a b c,
        calculateWinner sq = mkWinnerInfo (str m) [a; b; c]
        /\ first_match sq = Some (a, b, c)
        /\ (a, b, c) ∈ lines
        /\ get sq a = str m /\ get sq b = str m /\ get sq c = str m).
Proof.
  unfold calculateWinner, first_match.
  pose proof (scan_find lines sq) as Hscan.
  destruct (List.find (line_matches sq) lines) as [[[a b] c]|] eqn:F.
  - right. apply find_some in F as [Hin Hm].
    apply line_matches_spec in Hm as (m & Ha & Hb & Hc).
    exists m, a, b, c. rewrite Hscan, Ha.
    split; [reflexivity|]. split; [reflexivity|].
    split; [apply list_elem_of_In, Hin | auto].
  - left. split; [exact Hscan|]. split; [reflexivity|].
    intros l Hin. eapply find_none; [exact F | apply list_elem_of_In, Hin].
Qed.

(** X1.  Whatever the array (short, sparse, longer than nine),
    [calculateWinner] either returns a null winner with an empty line, and
    then no triple of the table holds three equal marks, or returns a mark
    with the first triple of the table, in scan order, whose three cells
    hold that mark; the indices of the line are increasing and at most 8.
    The winner is never [undefined]. *)
Theorem calculateWinner_sound_complete (sq : Array) :
  (calculateWinner sq = mkWinnerInfo null []
   /\ forall l, l ∈ lines -> line_matches sq l = false)
  \/ (exists m a b c,
        calculateWinner sq = mkWinnerInfo (str m) [a; b; c]
        /\ first_match sq = Some (a, b, c)
        /\ (a, b, c) ∈ lines
        /\ a < b /\ b < c /\ c <= 8
        /\ get sq a = str m /\ get sq b = str m /\ get sq c = str m).
Proof.
  destruct (calculateWinner_cases sq)
    as [(E & _ & Hnone)|(m & a & b & c & E & F & Hin & Ha & Hb & Hc)].
  - left. auto.
  - right. exists m, a, b, c.
    destruct (lines_ordered a b c Hin) as (? & ? & ?). repeat split; auto.
Qed.

(** A scan needs three cells: an array with fewer than three slots has no
    winner. *)
Lemma calculateWinner_short (sq : Array) :
  length sq < 3 -> calculateWinner sq = mkWinnerInfo null [].
Proof.
  intros Hlen.
  destruct (calculateWinner_cases sq)
    as [(E & _)|(m & a & b & c & _ & _ & Hin & _ & _ & Hc)]; [exact E|].
  destruct (lines_ordered a b c Hin) as (? & ? & ?).
  unfold get in Hc. rewrite (proj2 (lookup_ge_None sq c)) in Hc by lia.
  discriminate.
Qed.

Lemma Inv_outcome_sound s :
  Inv s ->
  match outcome s with
  | WIN m l =>
      exists a b c,
        l = [a; b; c] /\ (a, b, c) ∈ lines
        /\ get (board s) a = str m /\ get (board s) b = str m
        /\ get (board s) c = str m
  | DRAW =>
      filled9 (board s) = true
      /\ forall l, l ∈ lines -> line_matches (board s) l = false
  | IN_PROGRESS =>
      filled9 (board s) = false
      /\ forall l, l ∈ lines -> line_matches (board s) l = false
  end.
Proof.
  intros [Hw Hd Hb].
  rewrite (every_filled9 _ Hb) in Hd. unfold outcome. rewrite Hd, Hw.
  destruct (calculateWinner_cases (board s))
    as [(E & _ & Hnone)|(m & a & b & c & E & _ & Hin & Ha & Hb' & Hc)];
    rewrite E; cbn [winner line truthy negb andb].
  - destruct (filled9 (board s)); auto.
  - exists a, b, c. auto.
Qed.

(** X2.  In every state the component can reach the outcome shown is the
    one the board carries: a win comes with a triple of the table whose
    three cells hold the winner's mark; a draw means the nine cells are
    filled and no triple matches; in progress means no triple matches and
    some cell is still empty. *)
Theorem outcome_sound s :
  reachable s ->
  match outcome s with
  | WIN m l =>
      exists a b c,
        l = [a; b; c] /\ (a, b, c) ∈ lines
        /\ get (board s) a = str m /\ get (board s) b = str m
        /\ get (board s) c = str m
  | DRAW =>
      filled9 (board s) = true
      /\ forall l, l ∈ lines -> line_matches (board s) l = false
  | IN_PROGRESS =>
      filled9 (board s) = false
      /\ forall l, l ∈ lines -> line_matches (board s) l = false
  end.
Proof. intros Hs. apply Inv_outcome_sound, reachable_Inv, Hs. Qed.

Lemma outcome_sound_witness :
  let s := {| theme := light;
              board := [Some (str X); Some (str O); Some (str X);
                        Some (str X); Some (str X); Some (str O);
                        Some (str O); Some (str X); Some (str O)];
              xIsNext := false;
              scores := Scores.mk 0 0 1;
              winnerInfo := mkWinnerInfo null [];
              isDraw := true |} in
  reachable s
  /\ filled9 (board s) = true
  /\ forall l, l ∈ lines -> line_matches (board s) l = false.
Proof.
  intros s.
  assert (Hr : reachable s).
  { apply (play_reachable [0; 1; 2; 5; 3; 6; 4; 8; 7] init s);
      [apply reachable_init | reflexivity]. }
  split; [exact Hr|]. exact (outcome_sound s Hr).
Defined.

(** ** What a click touches *)

(** X3.  A click at any integer index, on a board object carrying any
    properties, never overwrites a mark held by an array element and
    changes no array element other than the clicked one.  Properties that
    are not elements are not kept: unless the click is ignored, the board
    is left with no such property but the one the click wrote, if any. *)
Theorem click_keeps_marks (c : Component) (idx : Z) c' :
  click_at c idx = Normal c' ->
  (forall i, is_array_index i = true -> i <> idx ->
     object_get (boardObject c') i = object_get (boardObject c) i)
  /\ (forall i m, is_array_index i = true ->
        object_get (boardObject c) i = str m ->
        object_get (boardObject c') i = str m)
  /\ (c' = c
      \/ boardProperties c'
         = if is_array_index idx then ∅
           else {[ idx := str (turn (hooks c)) ]}).
Proof.
  rewrite click_at_eq.
  destruct (gameOver (hooks c) || truthy (object_get (boardObject c) idx)) eqn:G;
    intros [= <-].
  - auto.
  - apply orb_false_iff in G as [_ G]. cbv zeta.
    unfold object_get, object_set in *.
    cbn [hooks boardProperties boardObject elements properties board] in *.
    destruct (is_array_index idx) eqn:Hk;
      cbn [hooks boardProperties boardObject elements properties board].
    + apply bool_decide_eq_true in Hk. split; [|split; [|right; reflexivity]].
      * intros i Hi Hne. rewrite Hi. apply bool_decide_eq_true in Hi.
        apply get_array_set_ne. lia.
      * intros i m Hi. rewrite Hi. intros Hget.
        rewrite get_array_set_ne; [exact Hget|].
        intros E. apply bool_decide_eq_true in Hi.
        assert (i = idx) as -> by lia. rewrite Hget in G. discriminate.
    + split; [|split; [|right; apply insert_empty]].
      * intros i Hi _. rewrite Hi. reflexivity.
      * intros i m Hi. rewrite Hi. auto.
Qed.

Lemma click_keeps_marks_witness :
  let c := mkComponent
             {| theme := light;
                board := [Some null; Some null; Some null;
                          Some null; Some (str X); Some null;
                          Some null; Some null; Some null];
                xIsNext := true;
                scores := Scores.mk 0 0 0;
                winnerInfo := mkWinnerInfo null [];
                isDraw := false |}
             {[ 4294967295%Z := str O ]} in
  let c' := mkComponent
              {| theme := light;
                 board := [Some (str X); Some null; Some null;
                           Some null; Some (str X); Some null;
                           Some null; Some null; Some null];
                 xIsNext := false;
                 scores := Scores.mk 0 0 0;
                 winnerInfo := mkWinnerInfo null [];
                 isDraw := false |}
              ∅ in
  click_at c 0 = Normal c'
  /\ object_get (boardObject c) 4294967295 = str O
  /\ object_get (boardObject c') 4294967295 = undefined
  /\ object_get (boardObject c) 4 = str X
  /\ object_get (boardObject c') 4 = str X.
Proof.
  intros c c'.
  assert (Hstep : click_at c 0 = Normal c') by reflexivity.
  split; [exact Hstep|]. split; [reflexivity|]. split; [reflexivity|].
  split; [reflexivity|].
  apply (proj1 (proj2 (click_keeps_marks c 0 c' Hstep)) 4%Z X); reflexivity.
Defined.

(** ** The scoreboard *)

Lemma step_click_scores s idx s' :
  step s (Click idx) = Normal s' ->
  (gameOver s = false /\ gameOver s' = true
   /\ match winner (winnerInfo s') with
      | str k => scores s' = with_key (scores s) k (at_key (scores s) k + 1)
      | _ => scores s' = with_draws (scores s) (Scores.draws (scores s) + 1)
      end)
  \/ (gameOver s' = gameOver s /\ scores s' = scores s).
Proof.
  rewrite step_click.
  destruct (gameOver s || truthy (get (board s) idx)) eqn:G; intros [= <-];
    [right; auto|].
  apply orb_false_iff in G as [G _]. cbv zeta.
  unfold click_scores, gameOver, Boolean. cbn [winnerInfo isDraw scores].
  destruct (winner (calculateWinner _)) as [| |k]; cbn [truthy negb andb orb];
    try (left; auto; fail);
    (destruct (every truthy _); [left; auto | right; auto]).
Qed.

(** X4.  On a scoreboard whose counters are below 2^53, where adding one
    is exact, a click changes the scoreboard exactly when it concludes the
    round, and then exactly one counter grows by one: the winner's on a
    win, the draws counter on a draw.  Any other click leaves the three
    counters as they were. *)
Theorem click_scores_once s idx s' :
  safe_counters (scores s) ->
  step s (Click idx) = Normal s' ->
  (scores s' <> scores s <-> gameOver s = false /\ gameOver s' = true)
  /\ (gameOver s = false -> gameOver s' = true ->
      total (scores s') = total (scores s) + 1
      /\ match winner (winnerInfo s') with
         | str k =>
             at_key (scores s') k = at_key (scores s) k + 1
             /\ at_key (scores s') (other k) = at_key (scores s) (other k)
             /\ Scores.draws (scores s') = Scores.draws (scores s)
         | _ =>
             Scores.draws (scores s') = Scores.draws (scores s) + 1
             /\ Scores.X (scores s') = Scores.X (scores s)
             /\ Scores.O (scores s') = Scores.O (scores s)
         end).
Proof.
  intros _ Hstep.
  destruct (step_click_scores s idx s' Hstep) as [(G & G' & Hsc)|[G Hsc]].
  - assert (Hcount :
      total (scores s') = total (scores s) + 1
      /\ match winner (winnerInfo s') with
         | str k =>
             at_key (scores s') k = at_key (scores s) k + 1
             /\ at_key (scores s') (other k) = at_key (scores s) (other k)
             /\ Scores.draws (scores s') = Scores.draws (scores s)
         | _ =>
             Scores.draws (scores s') = Scores.draws (scores s) + 1
             /\ Scores.X (scores s') = Scores.X (scores s)
             /\ Scores.O (scores s') = Scores.O (scores s)
         end).
    { unfold total.
      destruct (winner (winnerInfo s')) as [| |[|]]; rewrite Hsc; cbn;
        (split; [lia | auto]). }
    split; [|intros _ _; exact Hcount]. split; [auto|]. intros _ Heq.
    destruct Hcount as [Ht _]. rewrite Heq in Ht. lia.
  - split.
    + split; [congruence|]. intros [G1 G2]. congruence.
    + intros G1 G2. congruence.
Qed.

Lemma click_scores_once_witness :
  let s := {| theme := light;
              board := [Some (str X); Some (str X); Some null;
                        Some (str O); Some (str O); Some null;
                        Some null; Some null; Some null];
              xIsNext := true;
              scores := Scores.mk 4 2 1;
              winnerInfo := mkWinnerInfo null [];
              isDraw := false |} in
  let s' := {| theme := light;
               board := [Some (str X); Some (str X); Some (str X);
                         Some (str O); Some (str O); Some null;
                         Some null; Some null; Some null];
               xIsNext := false;
               scores := Scores.mk 5 2 1;
               winnerInfo := mkWinnerInfo (str X) [0; 1; 2];
               isDraw := false |} in
  safe_counters (scores s)
  /\ step s (Click 2) = Normal s'
  /\ scores s' <> scores s
  /\ total (scores s') = total (scores s) + 1.
Proof.
  intros s s'.
  assert (Hsafe : safe_counters (scores s)) by (repeat split).
  assert (Hstep : step s (Click 2) = Normal s') by reflexivity.
  split; [exact Hsafe|]. split; [exact Hstep|].
  destruct (click_scores_once s 2 s' Hsafe Hstep) as [Hiff Hone].
  split; [apply Hiff; split; reflexivity|].
  exact (proj1 (Hone eq_refl eq_refl)).
Defined.

(** ** Disabled squares and the guard of the handler *)

Lemma step_click_noop_iff s idx :
  step s (Click idx) = Normal s
  <-> gameOver s || truthy (get (board s) idx) = true.
Proof.
  rewrite step_click.
  destruct (gameOver s || truthy (get (board s) idx)) eqn:G.
  - split; reflexivity.
  - split; [|discriminate]. intros [= E]. exfalso.
    apply orb_false_iff in G as [_ G].
    apply (f_equal (fun st => get (board st) idx)) in E. cbn [board] in E.
    rewrite get_array_set_eq in E. rewrite <- E in G. discriminate.
Qed.

Lemma renderBoard_lookup s idx :
  renderBoard s !! idx
  = (fun slot => (fun val => renderSquare s val idx) <$> slot) <$> board s !! idx.
Proof. unfold renderBoard. rewrite list_lookup_imap. reflexivity. Qed.

(** X5.  The [disabled] prop of a rendered square says exactly what the
    handler would do with a click on it: the square is disabled if and only
    if [handleSquareClick] on its index leaves the whole state unchanged. *)
Theorem disabled_iff_click_ignored s idx sq :
  renderBoard s !! idx = Some (Some sq) ->
  (disabled sq = true <-> step s (Click idx) = Normal s).
Proof.
  intros H. rewrite renderBoard_lookup in H.
  destruct (board s !! idx) as [[val|]|] eqn:E; cbn in H; try discriminate.
  injection H as <-. cbn [disabled renderSquare].
  rewrite step_click_noop_iff. unfold get. rewrite E. reflexivity.
Qed.

Lemma disabled_iff_click_ignored_witness :
  let s := {| theme := dark;
              board := [Some (str X); Some null; Some null;
                        Some null; Some null; Some null;
                        Some null; Some null; Some null];
              xIsNext := false;
              scores := Scores.mk 0 0 0;
              winnerInfo := mkWinnerInfo null [];
              isDraw := false |} in
  renderBoard s !! 0 = Some (Some (renderSquare s (str X) 0))
  /\ disabled (renderSquare s (str X) 0) = true
  /\ step s (Click 0) = Normal s.
Proof.
  intros s.
  assert (H : renderBoard s !! 0 = Some (Some (renderSquare s (str X) 0)))
    by reflexivity.
  split; [exact H|]. split; [reflexivity|].
  apply (disabled_iff_click_ignored s 0 _ H). reflexivity.
Defined.

(** ** Clicks that come from the rendered board *)

Lemma ui_reachable_reachable s : ui_reachable s -> reachable s.
Proof.
  induction 1 as [|s e s' _ IH _ Hstep];
    [apply reachable_init | eapply reachable_step; eauto].
Qed.

Lemma clickable_inv s idx :
  Forall cell_slot (board s) ->
  clickable s idx = true ->
  gameOver s = false /\ board s !! idx = Some (Some null).
Proof.
  intros Hall. unfold clickable. rewrite renderBoard_lookup.
  destruct (board s !! idx) as [[val|]|] eqn:E; cbn; try discriminate.
  intros H. apply negb_true_iff, orb_false_iff in H as [G Hval].
  split; [exact G|].
  pose proof (proj1 (Forall_lookup _ _) Hall idx _ E) as [[= ->]|[m [= ->]]];
    [reflexivity | discriminate].
Qed.

Lemma ui_reachable_board s :
  ui_reachable s -> length (board s) = 9 /\ Forall cell_slot (board s).
Proof.
  induction 1 as [|s e s' _ [Hlen Hall] Hen Hstep].
  - split; [reflexivity|]. apply Forall_replicate. left. reflexivity.
  - destruct e.
    + cbn in Hen. apply (clickable_inv s idx Hall) in Hen as [G Hnull].
      rewrite step_click, G in Hstep. unfold get in Hstep.
      rewrite Hnull in Hstep. cbn in Hstep. injection Hstep as <-.
      cbn [board]. rewrite array_set_in_range by (eapply lookup_lt_Some, Hnull).
      split; [rewrite length_insert; exact Hlen|].
      apply Forall_insert; [exact Hall|]. right. eauto.
    + rewrite step_newGame in Hstep. injection Hstep as <-.
      split; [reflexivity|]. apply Forall_replicate. left. reflexivity.
    + rewrite step_resetScores in Hstep. injection Hstep as <-.
      split; [reflexivity|]. apply Forall_replicate. left. reflexivity.
    + rewrite step_toggleTheme in Hstep. injection Hstep as <-. auto.
Qed.

(** X6.  Whatever the user does with the rendered page (clicks on enabled
    squares, New Game, Reset Scores, the theme button), the board keeps
    exactly nine slots, each empty or holding a mark, and the clicks that
    can reach the handler are exactly the accepted moves: the index is in
    0..8, the round is in progress and the cell is empty. *)
Theorem ui_clicks_are_accepted_moves s :
  ui_reachable s ->
  length (board s) = 9
  /\ (forall i, i <= 8 ->
        get (board s) i = null \/ exists m, get (board s) i = str m)
  /\ (forall idx, clickable s idx = accepted s idx).
Proof.
  intros Hs. destruct (ui_reachable_board s Hs) as [Hlen Hall].
  split; [exact Hlen|]. split.
  - intros i Hi.
    destruct (lookup_lt_is_Some_2 (board s) i) as [slot Hslot]; [lia|].
    unfold get. rewrite Hslot.
    pose proof (proj1 (Forall_lookup _ _) Hall i _ Hslot) as [->|[m ->]]; eauto.
  - intros idx. unfold clickable, accepted. rewrite renderBoard_lookup.
    unfold get.
    destruct (board s !! idx) as [slot|] eqn:E; cbn.
    + assert (Hidx : idx <= 8) by (apply lookup_lt_Some in E; lia).
      rewrite (bool_decide_eq_true_2 _ Hidx).
      pose proof (proj1 (Forall_lookup _ _) Hall idx _ E) as [->|[m ->]];
        cbn; destruct (gameOver s); reflexivity.
    + assert (Hidx : ~ idx <= 8) by (apply lookup_ge_None in E; lia).
      rewrite (bool_decide_eq_false_2 _ Hidx).
      destruct (gameOver s); reflexivity.
Qed.

Lemma ui_clicks_are_accepted_moves_witness :
  ui_reachable init
  /\ length (board init) = 9
  /\ clickable init 4 = true /\ accepted init 4 = true
  /\ clickable init 9 = accepted init 9.
Proof.
  split; [apply ui_reachable_init|].
  destruct (ui_clicks_are_accepted_moves init ui_reachable_init)
    as (Hlen & _ & Hclick).
  split; [exact Hlen|]. split; [reflexivity|]. split; [reflexivity|].
  apply Hclick.
Defined.

(** ** The highlighted line *)

(** X7.  In every reachable state the squares given the [win-cell] class
    are cells of the board that hold the winner's mark; there are exactly
    three of them when a winner is shown and none otherwise. *)
Theorem winning_cells_highlighted s :
  reachable s ->
  (forall idx, isWinning s idx = true ->
     idx <= 8
     /\ exists m, winner (winnerInfo s) = str m /\ get (board s) idx = str m)
  /\ length (filter (fun idx => isWinning s idx = true) (seq 0 9))
     = if truthy (winner (winnerInfo s)) then 3 else 0.
Proof.
  intros Hs. apply reachable_Inv in Hs as [Hw _ _].
  unfold isWinning. rewrite Hw.
  destruct (calculateWinner_cases (board s))
    as [(E & _)|(m & a & b & c & E & _ & Hin & Ha & Hb & Hc)]; rewrite E;
    cbn [winner line truthy].
  - split; [|reflexivity]. intros idx H.
    apply bool_decide_eq_true in H. inversion H.
  - split.
    + intros idx H. apply bool_decide_eq_true in H.
      destruct (lines_ordered a b c Hin) as (? & ? & ?).
      apply list_elem_of_In in H. cbn in H.
      destruct H as [<- | [<- | [<- | []]]]; (split; [lia | eauto]).
    + apply list_elem_of_In in Hin. cbn in Hin.
      repeat (destruct Hin as [Hin|Hin]; [injection Hin as <- <- <-; reflexivity|]).
      destruct Hin.
Qed.

Lemma winning_cells_highlighted_witness :
  let s := {| theme := light;
              board := [Some (str X); Some (str X); Some (str X);
                        Some (str O); Some (str O); Some null;
                        Some null; Some null; Some null];
              xIsNext := false;
              scores := Scores.mk 1 0 0;
              winnerInfo := mkWinnerInfo (str X) [0; 1; 2];
              isDraw := false |} in
  reachable s
  /\ isWinning s 1 = true
  /\ get (board s) 1 = str X
  /\ length (filter (fun idx => isWinning s idx = true) (seq 0 9)) = 3.
Proof.
  intros s.
  assert (Hr : reachable s).
  { apply (play_reachable [0; 3; 1; 4; 2] init s);
      [apply reachable_init | reflexivity]. }
  split; [exact Hr|]. split; [reflexivity|]. split; [reflexivity|].
  exact (proj2 (winning_cells_highlighted s Hr)).
Defined.

(** ** The theme *)

(** X8.  Toggling the theme twice gives back the state, and the theme
    button commutes with every other event: the order of a toggle and a
    click, a new game or a reset does not matter. *)
Theorem toggleTheme_involutive_commutes s e :
  run s [ToggleTheme; ToggleTheme] = Normal s
  /\ run s [ToggleTheme; e] = run s [e; ToggleTheme].
Proof.
  destruct s as [th b x sc w d]. split.
  - destruct th; reflexivity.
  - destruct e; cbn [run]; rewrite ?step_toggleTheme, ?step_click,
      ?step_newGame, ?step_resetScores; try reflexivity.
    unfold gameOver. cbn [theme board xIsNext scores winnerInfo isDraw].
    destruct (Boolean (winner w) || d || truthy (get b idx));
      rewrite step_toggleTheme; reflexivity.
Qed.

Lemma page_run_tracks es : forall p,
  data_theme p = Some (theme_text (theme (page_state p))) ->
  exists p',
    page_run p es = Normal p'
    /\ run (page_state p) es = Normal (page_state p')
    /\ data_theme p' = Some (theme_text (theme (page_state p'))).
Proof.
  induction es as [|e rest IH]; intros p Hp; cbn [page_run run].
  - exists p. auto.
  - unfold page_step. destruct (step_total (page_state p) e) as [s' Hs'].
    rewrite Hs'. apply IH. cbn [data_theme page_state]. unfold themeEffect.
    destruct (decide (theme (page_state p) = theme s')) as [E|_];
      [rewrite <- E; exact Hp | reflexivity].
Qed.

(** X9.  Whatever the [data-theme] attribute of the document was before
    the component mounted, after mounting and after any series of events
    it names the current theme, although the effect is skipped on every
    render that leaves the theme unchanged; the effect never disturbs the
    state. *)
Theorem data_theme_tracks_theme attr0 es :
  exists p,
    page_run (mount attr0) es = Normal p
    /\ run init es = Normal (page_state p)
    /\ data_theme p = Some (theme_text (theme (page_state p))).
Proof. apply (page_run_tracks es (mount attr0)). reflexivity. Qed.

(** ** Alternation in every reachable state *)

Lemma filter_replicate_None (P : option value -> Prop)
    `{!forall x, Decision (P x)} n :
  ~ P None -> filter P (replicate n None) = [].
Proof.
  intros HP. induction n as [|n IH]; [reflexivity|].
  cbn [replicate]. rewrite filter_cons, decide_False by exact HP. exact IH.
Qed.

Lemma count_mark_array_set m m' (a : Array) i :
  truthy (get a i) = false ->
  count_mark m (array_set a i (str m'))
  = count_mark m a + (if decide (m = m') then 1 else 0).
Proof.
  intros Hfalsy. unfold array_set.
  destruct (decide (i < length a)) as [Hi|Hi].
  - destruct (lookup_lt_is_Some_2 a i Hi) as [slot Hslot].
    assert (Hno : slot <> Some (str m)).
    { intros ->. unfold get in Hfalsy. rewrite Hslot in Hfalsy. discriminate. }
    assert (E : count_mark m a
                = count_mark m (take i a ++ slot :: drop (S i) a))
      by (rewrite (take_drop_middle a i _ Hslot); reflexivity).
    rewrite E, (insert_take_drop a i _ Hi). unfold count_mark.
    rewrite !filter_app, !filter_cons, !length_app.
    rewrite (decide_False (P := slot = Some (str m))) by exact Hno.
    destruct (decide (m = m')) as [->|Hne].
    + rewrite decide_True by reflexivity. cbn. lia.
    + rewrite decide_False by congruence. lia.
  - unfold count_mark. rewrite !filter_app, !length_app.
    rewrite filter_replicate_None by discriminate.
    rewrite filter_cons, filter_nil.
    destruct (decide (m = m')) as [->|Hne].
    + rewrite decide_True by reflexivity. cbn. lia.
    + rewrite decide_False by congruence. cbn. lia.
Qed.

Lemma reachable_alternates s :
  reachable s ->
  count_mark X (board s)
  = count_mark O (board s) + (if xIsNext s then 0 else 1).
Proof.
  induction 1 as [|s e s' _ IH Hstep]; [reflexivity|].
  destruct e.
  - rewrite step_click in Hstep.
    destruct (gameOver s || truthy (get (board s) idx)) eqn:G;
      injection Hstep as <-; [exact IH|].
    apply orb_false_iff in G as [_ G]. cbn [board xIsNext].
    rewrite !(count_mark_array_set _ _ _ _ G).
    unfold turn. destruct (xIsNext s); cbn in *;
      repeat case_decide; try congruence; lia.
  - rewrite step_newGame in Hstep. injection Hstep as <-. reflexivity.
  - rewrite step_resetScores in Hstep. injection Hstep as <-. reflexivity.
  - rewrite step_toggleTheme in Hstep. injection Hstep as <-. exact IH.
Qed.

Lemma click_winner_is_mover s idx m :
  Inv s -> gameOver s = false ->
  winner (calculateWinner (array_set (board s) idx (str (turn s)))) = str m ->
  m = turn s.
Proof.
  intros HI G Hw.
  destruct (calculateWinner_cases (array_set (board s) idx (str (turn s))))
    as [(E & _)|(m' & a & b & c & E & _ & Hin & Ha & Hb & Hc)];
    rewrite E in Hw; [discriminate|].
  injection Hw as ->.
  assert (Hm : line_matches (array_set (board s) idx (str (turn s))) (a, b, c)
               = true) by (apply line_matches_spec; eauto).
  apply line_matches_array_set in Hm as [Hold|[_ Hnew]].
  - rewrite (Inv_no_match s HI G _ Hin) in Hold. discriminate.
  - congruence.
Qed.

Lemma reachable_winner_moved_last s m :
  reachable s -> winner (winnerInfo s) = str m -> m = other (turn s).
Proof.
  intros Hs. revert m. induction Hs as [|s e s' Hs IH Hstep]; intros m;
    [discriminate|].
  pose proof (reachable_Inv s Hs) as HI.
  destruct e.
  - rewrite step_click in Hstep.
    destruct (gameOver s || truthy (get (board s) idx)) eqn:G;
      injection Hstep as <-; [apply IH|].
    apply orb_false_iff in G as [G _]. cbn [winnerInfo]. intros Hw.
    apply (click_winner_is_mover s idx m HI G) in Hw. subst m.
    unfold turn. cbn [xIsNext]. destruct (xIsNext s); reflexivity.
  - rewrite step_newGame in Hstep. injection Hstep as <-. discriminate.
  - rewrite step_resetScores in Hstep. injection Hstep as <-. discriminate.
  - rewrite step_toggleTheme in Hstep. injection Hstep as <-. apply IH.
Qed.

Lemma index_reachable_reachable s : index_reachable s -> reachable s.
Proof.
  induction 1 as [|s e s' _ IH _ Hstep];
    [apply reachable_init | eapply reachable_step; eauto].
Qed.

(** X10.  In every state reached by events whose clicks are at array
    indices (0 to 2^32 - 2), whatever clicks came before (also ignored ones
    and clicks past the ninth cell, which extend the array) and however
    many rounds were played, the marks keep alternating: there are as many
    X as O when X is next and one more X than O when O is next. *)
Theorem marks_alternate_everywhere s :
  index_reachable s ->
  count_mark X (board s)
  = count_mark O (board s) + (if xIsNext s then 0 else 1).
Proof. intros Hs. apply reachable_alternates, index_reachable_reachable, Hs. Qed.

Lemma marks_alternate_everywhere_witness :
  let s := {| theme := light;
              board := [Some (str X); Some null; Some null;
                        Some null; Some null; Some null;
                        Some null; Some null; Some null;
                        None; None; Some (str O)];
              xIsNext := true;
              scores := Scores.mk 0 0 0;
              winnerInfo := mkWinnerInfo null [];
              isDraw := false |} in
  index_reachable s
  /\ count_mark X (board s) = count_mark O (board s) + 0.
Proof.
  intros s.
  assert (Hr : index_reachable s).
  { apply (index_reachable_step (mkState light
             [Some (str X); Some null; Some null; Some null; Some null;
              Some null; Some null; Some null; Some null]
             false (Scores.mk 0 0 0) (mkWinnerInfo null []) false)
           (Click 11) s); [|reflexivity|reflexivity].
    apply (index_reachable_step init (Click 0));
      [apply index_reachable_init | reflexivity | reflexivity]. }
  split; [exact Hr|]. exact (marks_alternate_everywhere s Hr).
Defined.

(** X11.  When a winner is shown, the winner is the player who moved
    last: [xIsNext] already designates the other player, because the turn
    is flipped on the winning move too. *)
Theorem winner_moved_last s m l :
  reachable s -> outcome s = WIN m l ->
  turn s = other m /\ xIsNext s = bool_decide (m = O).
Proof.
  intros Hs Hout.
  assert (Hw : winner (winnerInfo s) = str m).
  { unfold outcome in Hout.
    destruct (winner (winnerInfo s)), (isDraw s); congruence. }
  apply (reachable_winner_moved_last s m Hs) in Hw. subst m.
  unfold turn. destruct (xIsNext s); split; reflexivity.
Qed.

Lemma winner_moved_last_witness :
  let s := {| theme := light;
              board := [Some (str X); Some (str X); Some (str X);
                        Some (str O); Some (str O); Some null;
                        Some null; Some null; Some null];
              xIsNext := false;
              scores := Scores.mk 1 0 0;
              winnerInfo := mkWinnerInfo (str X) [0; 1; 2];
              isDraw := false |} in
  reachable s /\ outcome s = WIN X [0; 1; 2] /\ turn s = O.
Proof.
  intros s.
  assert (Hr : reachable s).
  { apply (play_reachable [0; 3; 1; 4; 2] init s);
      [apply reachable_init | reflexivity]. }
  split; [exact Hr|]. split; [reflexivity|].
  exact (proj1 (winner_moved_last s X [0; 1; 2] Hr eq_refl)).
Defined.

(** ** The status line *)



(** ** How long a round lasts *)

Lemma fresh_Inv s : fresh s -> Inv s.
Proof.
  intros (Hb & _ & Hw & Hd).
  split; rewrite ?Hb, ?Hw, ?Hd; [reflexivity | reflexivity | apply board_ok_fill].
Qed.

Lemma play_Inv moves : forall s s', Inv s -> play s moves = Some s' -> Inv s'.
Proof.
  induction moves as [|idx rest IH]; intros s s' HI; cbn [play].
  - intros [= <-]. exact HI.
  - destruct (accepted s idx); [|discriminate].
    destruct (step s (Click idx)) as [s1|] eqn:E; [|discriminate].
    apply IH. eapply Inv_step; eauto.
Qed.

Lemma empty_cells_insert m (a : Array) i :
  a !! i = Some (Some null) ->
  empty_cells a = S (empty_cells (<[i := Some (str m)]> a)).
Proof.
  intros H.
  assert (Hi : i < length a) by (eapply lookup_lt_Some, H).
  assert (E : empty_cells a
              = empty_cells (take i a ++ Some null :: drop (S i) a))
    by (rewrite (take_drop_middle a i _ H); reflexivity).
  rewrite E, (insert_take_drop a i _ Hi). unfold empty_cells.
  rewrite !filter_app, !filter_cons, !length_app.
  rewrite decide_True by reflexivity. rewrite decide_False by discriminate.
  cbn. lia.
Qed.

Lemma play_counts moves : forall s s',
  play s moves = Some s' ->
  length (board s') = length (board s)
  /\ empty_cells (board s') + length moves = empty_cells (board s)
  /\ count_mark X (board s') + count_mark O (board s')
     = count_mark X (board s) + count_mark O (board s) + length moves.
Proof.
  induction moves as [|idx rest IH]; intros s s'; cbn [play].
  - intros [= <-]. cbn. lia.
  - destruct (accepted s idx) eqn:Hacc; [|discriminate].
    rewrite (step_click_accepted s idx Hacc). cbv zeta. intros Hplay.
    apply IH in Hplay as (Hlen & Hempty & Hmarks). cbn [board] in *.
    apply accepted_inv in Hacc as (_ & _ & Hnull).
    apply get_null_lookup in Hnull.
    rewrite length_insert in Hlen.
    rewrite (empty_cells_insert (turn s) _ _ Hnull).
    rewrite !(count_mark_insert _ _ _ _ Hnull) in Hmarks.
    cbn [length]. split; [exact Hlen|]. split; [lia|].
    destruct (turn s); repeat case_decide; try congruence; lia.
Qed.

Lemma empty_cells_zero_filled (a : Array) :
  board_ok a -> empty_cells a = 0 -> filled9 a = true.
Proof.
  intros [Hlen Hslots] Hzero. unfold filled9. apply forallb_forall.
  intros i Hi. apply in_seq in Hi.
  destruct (lookup_lt_is_Some_2 a i) as [slot Hslot]; [lia|].
  unfold get. rewrite Hslot.
  pose proof (Hslots i slot Hslot) as Hs. rewrite decide_True in Hs by lia.
  destruct Hs as [->|[m ->]]; [|reflexivity]. exfalso.
  unfold empty_cells in Hzero. apply nil_length_inv in Hzero.
  eapply (filter_nil_not_elem_of _ _ (Some null) Hzero); [reflexivity|].
  apply list_elem_of_lookup. eauto.
Qed.

Lemma filled_empty_cells_zero (a : Array) :
  length a = 9 -> filled9 a = true -> empty_cells a = 0.
Proof.
  intros Hlen Hfilled. unfold empty_cells.
  destruct (filter _ a) as [|x rest] eqn:F; [reflexivity|]. exfalso.
  assert (Hx : x ∈ filter (fun slot => slot = Some null) a)
    by (rewrite F; left).
  apply list_elem_of_filter in Hx as [-> Hin].
  apply list_elem_of_lookup in Hin as [i Hi].
  unfold filled9 in Hfilled.
  assert (Hget : truthy (get a i) = true).
  { eapply forallb_forall in Hfilled; [exact Hfilled|].
    apply in_seq. apply lookup_lt_Some in Hi. lia. }
  unfold get in Hget. rewrite Hi in Hget. discriminate.
Qed.

Lemma get_str_lookup (a : Array) i m :
  get a i = str m -> a !! i = Some (Some (str m)).
Proof.
  unfold get. destruct (a !! i) as [[v|]|]; try discriminate.
  intros ->. reflexivity.
Qed.

Lemma count_mark_from m (a : Array) i :
  get a i = str m -> S (count_mark m (drop (S i) a)) <= count_mark m a.
Proof.
  intros H. apply get_str_lookup in H.
  rewrite <- (take_drop_middle a i _ H) at 2. unfold count_mark.
  rewrite filter_app, filter_cons, length_app, decide_True by reflexivity.
  cbn. lia.
Qed.

Lemma get_drop (a : Array) n i : get (drop n a) i = get a (n + i).
Proof. unfold get. rewrite lookup_drop. reflexivity. Qed.

Lemma three_marks_count m (a : Array) i j k :
  i < j -> j < k ->
  get a i = str m -> get a j = str m -> get a k = str m ->
  3 <= count_mark m a.
Proof.
  intros Hij Hjk Hi Hj Hk.
  pose proof (count_mark_from m a i Hi) as H1.
  assert (Hj' : get (drop (S i) a) (j - S i) = str m).
  { rewrite get_drop. replace (S i + (j - S i)) with j by lia. exact Hj. }
  pose proof (count_mark_from m _ _ Hj') as H2.
  assert (Hk' : get (drop (S (j - S i)) (drop (S i) a)) (k - S j) = str m).
  { rewrite !get_drop.
    replace (S i + (S (j - S i) + (k - S j))) with k by lia. exact Hk. }
  pose proof (count_mark_from m _ _ Hk') as H3.
  lia.
Qed.

Lemma fresh_counts s :
  fresh s ->
  length (board s) = 9 /\ empty_cells (board s) = 9
  /\ count_mark X (board s) = 0 /\ count_mark O (board s) = 0.
Proof. intros (-> & _). repeat split. Qed.

(** X13.  A round is over after at most nine accepted moves: from a fresh
    round, the number of moves played plus the number of empty cells is
    always nine, and after the ninth move the round is concluded. *)
Theorem round_ends_within_nine s0 moves s :
  fresh s0 -> play s0 moves = Some s ->
  length moves + empty_cells (board s) = 9
  /\ length moves <= 9
  /\ (length moves = 9 -> gameOver s = true).
Proof.
  intros Hf Hplay.
  destruct (fresh_counts s0 Hf) as (_ & He0 & _).
  destruct (play_counts moves s0 s Hplay) as (_ & He & _).
  pose proof (play_Inv moves s0 s (fresh_Inv s0 Hf) Hplay) as [Hw Hd Hb].
  split; [lia|]. split; [lia|]. intros Hnine.
  assert (Hfilled : filled9 (board s) = true)
    by (apply empty_cells_zero_filled; [exact Hb | lia]).
  rewrite (every_filled9 _ Hb), Hfilled in Hd.
  unfold gameOver, Boolean. rewrite Hd.
  destruct (truthy (winner (winnerInfo s))); reflexivity.
Qed.

Lemma round_ends_within_nine_witness :
  let s := {| theme := light;
              board := [Some (str X); Some (str O); Some (str X);
                        Some (str X); Some (str X); Some (str O);
                        Some (str O); Some (str X); Some (str O)];
              xIsNext := false;
              scores := Scores.mk 0 0 1;
              winnerInfo := mkWinnerInfo null [];
              isDraw := true |} in
  fresh init
  /\ play init [0; 1; 2; 5; 3; 6; 4; 8; 7] = Some s
  /\ empty_cells (board s) = 0
  /\ gameOver s = true.
Proof.
  intros s.
  assert (Hf : fresh init) by (repeat split).
  assert (Hplay : play init [0; 1; 2; 5; 3; 6; 4; 8; 7] = Some s) by reflexivity.
  split; [exact Hf|]. split; [exact Hplay|].
  destruct (round_ends_within_nine init _ s Hf Hplay) as (Hsum & _ & Hover).
  split; [cbn [length] in Hsum; lia | apply Hover; reflexivity].
Defined.

(** X14.  No round ends early: from a fresh round, X cannot have won
    before the fifth accepted move, O not before the sixth, and a draw is
    only declared after the ninth. *)
Theorem no_early_conclusion s0 moves s :
  fresh s0 -> play s0 moves = Some s ->
  match outcome s with
  | IN_PROGRESS => length moves <= 8
  | WIN X _ => 5 <= length moves
  | WIN O _ => 6 <= length moves
  | DRAW => length moves = 9
  end.
Proof.
  intros Hf Hplay.
  destruct (fresh_counts s0 Hf) as (Hl0 & He0 & Hx0 & Ho0).
  destruct (play_counts moves s0 s Hplay) as (Hlen & He & Hmarks).
  pose proof (play_Inv moves s0 s (fresh_Inv s0 Hf) Hplay) as HI.
  pose proof (play_alternates moves s0 s) as Halt.
  destruct Hf as (Hb0 & Hxn & _). rewrite Hxn, Hx0, Ho0 in Halt.
  specialize (Halt eq_refl Hplay).
  assert (Hdiff : count_mark O (board s) <= count_mark X (board s)
                  /\ count_mark X (board s) <= count_mark O (board s) + 1)
    by (destruct (xIsNext s); lia).
  pose proof (Inv_outcome_sound s HI) as Hout.
  destruct (outcome s) as [|m l|].
  - destruct Hout as [Hnot _].
    destruct (decide (length moves = 9)) as [Hnine|]; [|lia].
    rewrite (empty_cells_zero_filled (board s)) in Hnot;
      [discriminate | apply HI | lia].
  - destruct Hout as (a & b & c & _ & Hin & Ha & Hb & Hc).
    destruct (lines_ordered a b c Hin) as (Hab & Hbc & _).
    pose proof (three_marks_count m (board s) a b c Hab Hbc Ha Hb Hc).
    destruct m; lia.
  - destruct Hout as [Hfilled _].
    pose proof (filled_empty_cells_zero (board s)) as Hz.
    rewrite Hz in He; [lia | lia | exact Hfilled].
Qed.

Lemma no_early_conclusion_witness :
  let s := {| theme := light;
              board := [Some (str O); Some (str X); Some (str X);
                        Some (str O); Some (str X); Some null;
                        Some (str O); Some null; Some null];
              xIsNext := true;
              scores := Scores.mk 0 1 0;
              winnerInfo := mkWinnerInfo (str O) [0; 3; 6];
              isDraw := false |} in
  fresh init
  /\ play init [1; 0; 2; 3; 4; 6] = Some s
  /\ outcome s = WIN O [0; 3; 6]
  /\ 6 <= length [1; 0; 2; 3; 4; 6].
Proof.
  intros s.
  assert (Hf : fresh init) by (repeat split).
  assert (Hplay : play init [1; 0; 2; 3; 4; 6] = Some s) by reflexivity.
  split; [exact Hf|]. split; [exact Hplay|].
  split; [reflexivity|].
  exact (no_early_conclusion init [1; 0; 2; 3; 4; 6] s Hf Hplay).
Defined.

(** ** The scoreboard over many events *)

Lemma step_scores_le s e s' :
  e <> ResetScores -> step s e = Normal s' ->
  Scores.X (scores s) <= Scores.X (scores s')
  /\ Scores.O (scores s) <= Scores.O (scores s')
  /\ Scores.draws (scores s) <= Scores.draws (scores s').
Proof.
  intros Hne Hstep. destruct e; [| | congruence |].
  - destruct (step_click_scores s idx s' Hstep) as [(_ & _ & Hsc)|[_ ->]];
      [|lia].
    destruct (winner (winnerInfo s')) as [| |[|]]; rewrite Hsc; cbn; lia.
  - rewrite step_newGame in Hstep. injection Hstep as <-. cbn. lia.
  - rewrite step_toggleTheme in Hstep. injection Hstep as <-. cbn. lia.
Qed.

(** X15.  As long as Reset Scores is not pressed, no counter of the
    scoreboard ever decreases, whatever else happens (clicks, new games,
    theme toggles). *)
Theorem scores_never_decrease es : forall s s',
  ResetScores ∉ es -> run s es = Normal s' ->
  Scores.X (scores s) <= Scores.X (scores s')
  /\ Scores.O (scores s) <= Scores.O (scores s')
  /\ Scores.draws (scores s) <= Scores.draws (scores s').
Proof.
  induction es as [|e rest IH]; intros s s' Hno; cbn [run].
  - intros [= <-]. lia.
  - destruct (step s e) as [s1|] eqn:E; [|discriminate]. intros Hrun.
    apply not_elem_of_cons in Hno as [Hne Hno].
    apply (step_scores_le s e s1) in E; [|congruence].
    apply (IH s1 s' Hno) in Hrun. lia.
Qed.

Lemma scores_never_decrease_witness :
  let es := [Click 0; Click 3; Click 1; Click 4; Click 2;
             NewGame; Click 4; ToggleTheme] in
  let s' := {| theme := dark;
               board := [Some null; Some null; Some null;
                         Some null; Some (str X); Some null;
                         Some null; Some null; Some null];
               xIsNext := false;
               scores := Scores.mk 1 0 0;
               winnerInfo := mkWinnerInfo null [];
               isDraw := false |} in
  (ResetScores ∉ es)
  /\ run init es = Normal s'
  /\ Scores.X (scores init) <= Scores.X (scores s').
Proof.
  intros es s'.
  assert (Hno : ResetScores ∉ es).
  { intros Hin. apply list_elem_of_In in Hin. cbn in Hin.
    repeat (destruct Hin as [Hin|Hin]; [discriminate|]). destruct Hin. }
  assert (Hrun : run init es = Normal s') by reflexivity.
  split; [exact Hno|]. split; [exact Hrun|].
  exact (proj1 (scores_never_decrease es init s' Hno Hrun)).
Defined.

(** ** Play does not depend on scores or theme *)

Lemma step_game_part s1 s2 e s1' s2' :
  game_part s1 = game_part s2 ->
  step s1 e = Normal s1' -> step s2 e = Normal s2' ->
  game_part s1' = game_part s2'.
Proof.
  unfold game_part. intros [= Hb Hx Hw Hd]. destruct e.
  - rewrite !step_click. unfold gameOver, turn. rewrite Hb, Hx, Hw, Hd.
    destruct (Boolean (winner (winnerInfo s2)) || isDraw s2
              || truthy (get (board s2) idx));
      intros [= <-] [= <-]; cbn; congruence.
  - rewrite !step_newGame. intros [= <-] [= <-]. reflexivity.
  - rewrite !step_resetScores. intros [= <-] [= <-]. reflexivity.
  - rewrite !step_toggleTheme. intros [= <-] [= <-]. cbn. congruence.
Qed.

(** X16.  The course of the game never depends on the scoreboard or the
    theme: two states with the same board, turn, winner and draw flag go
    through any series of events to states with the same board, turn,
    winner, draw flag, and so the same outcome and status line. *)
Theorem game_ignores_scores_and_theme es : forall s1 s2 s1' s2',
  game_part s1 = game_part s2 ->
  run s1 es = Normal s1' -> run s2 es = Normal s2' ->
  game_part s1' = game_part s2'
  /\ outcome s1' = outcome s2'
  /\ statusText s1' = statusText s2'.
Proof.
  assert (Hobs : forall s1 s2, game_part s1 = game_part s2 ->
            game_part s1 = game_part s2
            /\ outcome s1 = outcome s2 /\ statusText s1 = statusText s2).
  { intros s1 s2 H. split; [exact H|]. unfold game_part in H.
    injection H as Hb Hx Hw Hd. unfold outcome, statusText.
    rewrite Hx, Hw, Hd. auto. }
  induction es as [|e rest IH]; intros s1 s2 s1' s2' Hgp; cbn [run].
  - intros [= <-] [= <-]. apply Hobs, Hgp.
  - destruct (step s1 e) as [t1|] eqn:E1; [|discriminate].
    destruct (step s2 e) as [t2|] eqn:E2; [|discriminate].
    apply IH. eapply step_game_part; eauto.
Qed.

Lemma game_ignores_scores_and_theme_witness :
  let s2 := {| theme := dark;
               board := Array_fill 9 null;
               xIsNext := true;
               scores := Scores.mk 7 3 2;
               winnerInfo := mkWinnerInfo null [];
               isDraw := false |} in
  let won := [Some (str X); Some (str X); Some (str X);
              Some (str O); Some (str O); Some null;
              Some null; Some null; Some null] in
  let s1' := mkState light won false (Scores.mk 1 0 0)
                     (mkWinnerInfo (str X) [0; 1; 2]) false in
  let s2' := mkState dark won false (Scores.mk 8 3 2)
                     (mkWinnerInfo (str X) [0; 1; 2]) false in
  game_part init = game_part s2
  /\ run init (Click <$> [0; 3; 1; 4; 2]) = Normal s1'
  /\ run s2 (Click <$> [0; 3; 1; 4; 2]) = Normal s2'
  /\ statusText s1' = statusText s2'.
Proof.
  intros s2 won s1' s2'.
  assert (Hgp : game_part init = game_part s2) by reflexivity.
  assert (H1 : run init (Click <$> [0; 3; 1; 4; 2]) = Normal s1') by reflexivity.
  assert (H2 : run s2 (Click <$> [0; 3; 1; 4; 2]) = Normal s2') by reflexivity.
  split; [exact Hgp|]. split; [exact H1|]. split; [exact H2|].
  exact (proj2 (proj2 (game_ignores_scores_and_theme
                         (Click <$> [0; 3; 1; 4; 2]) init s2 s1' s2'
                         Hgp H1 H2))).
Defined.

(** ** Short arrays *)

(** X17.  A scan needs three cells: on an array with fewer than three
    slots, the empty array included, [calculateWinner] reads [undefined]
    past the end, raises nothing and reports no winner. *)
Theorem calculateWinner_short_array (sq : Array) :
  length sq < 3 -> calculateWinner sq = mkWinnerInfo null [].
Proof. apply calculateWinner_short. Qed.

Lemma calculateWinner_short_array_witness :
  calculateWinner [Some (str X); Some (str X)] = mkWinnerInfo null [].
Proof. apply calculateWinner_short_array. cbn. lia. Defined.

(** ** The theme button, end to end *)

(** X18.  The label of the theme button announces what pressing it does:
    after the press and the effect that follows, the [data-theme]
    attribute of the document is the theme named in the label before the
    press, and pressing changes the label. *)
Theorem themeButton_does_what_it_says p :
  exists p' t,
    page_step p ToggleTheme = Normal p'
    /\ data_theme p' = Some t
    /\ themeButtonLabel (page_state p) = "Switch to " +:+ t +:+ " mode"
    /\ themeButtonLabel (page_state p') <> themeButtonLabel (page_state p).
Proof.
  unfold page_step. rewrite step_toggleTheme.
  destruct p as [[th b x sc w d] attr]. cbn [page_state data_theme theme].
  destruct th; eexists _, _; (split; [reflexivity|]);
    (split; [reflexivity|]); (split; [reflexivity|]); discriminate.
Qed.
